(** * Password generator: character lake, rejection sampling, passphrases

    A shallow embedding of [password_generator.py] (classes
    [PasswordPolicy], [CharacterLake] and [PasswordGenerator]) together
    with the properties of its generation-and-validation core.

    Conventions of the embedding.
    - A Python [str] is a [list ascii]: text of code points below 256.
      A one-character string that the program uses as a character is an
      [ascii].  All character classes of the program
      ([string.ascii_lowercase], [string.digits], ...) are 7-bit, and on
      7-bit text [str.lower], [str.upper] and [str.capitalize] are the
      ASCII case maps written below.  The maps leave the code points
      128..255 alone; Python's maps send none of them to a member of a
      character class, so the classes of the lake are the same either
      way.  Code points from 256 on are outside the model: an
      [exclude_chars] that holds one, or a word list that does, is not
      an input of these definitions.  Words that the program capitalizes
      are assumed to be 7-bit where a statement depends on their
      capitalized form.
    - A Python [int] is a [Z]; [range(n)] runs [Z.to_nat n] times, so it
      is empty for a negative [n].
    - Randomness is an explicit pair of tapes, one for the [random] module
      and one for [secrets]; a draw reads the tape at its cursor and moves
      the cursor.  Quantifying over the tapes covers every run.
    - Exceptions are values: a computation yields [Return v] or
      [Raise e], and keeps the tapes as they were when it stopped. *)

From Stdlib Require Import List Ascii String ZArith Lia Bool Arith.
From Stdlib Require Import Permutation DecimalString Finite.
Import ListNotations.

(** ** Strings *)

Definition str := list ascii.

Definition lit (s : string) : str := list_ascii_of_string s.

Definition is_ascii_upper (c : ascii) : bool :=
  (65 <=? nat_of_ascii c) && (nat_of_ascii c <=? 90).

Definition is_ascii_lower (c : ascii) : bool :=
  (97 <=? nat_of_ascii c) && (nat_of_ascii c <=? 122).

(** [char.lower()] and [char.upper()] on a one-character string. *)
Definition lower (c : ascii) : ascii :=
  if is_ascii_upper c then ascii_of_nat (nat_of_ascii c + 32) else c.

Definition upper (c : ascii) : ascii :=
  if is_ascii_lower c then ascii_of_nat (nat_of_ascii c - 32) else c.

(** [w.capitalize()]: first character upper-cased, the rest lower-cased.
    This is Python's result on 7-bit words; a statement about the
    capitalized form of a word assumes a 7-bit corpus ([ascii_text]
    below). *)
Definition capitalize (w : str) : str :=
  match w with
  | [] => []
  | c :: rest => upper c :: map lower rest
  end.

(** [s.replace(old, '')] for a one-character [old]. *)
Definition replace (old : ascii) (s : str) : str :=
  filter (fun x => negb (Ascii.eqb x old)) s.

(** [c in s] for a one-character [c]. *)
Definition contains (s : str) (c : ascii) : bool :=
  existsb (Ascii.eqb c) s.

(** [sep.join(parts)]. *)
Fixpoint join (sep : str) (parts : list str) : str :=
  match parts with
  | [] => []
  | [p] => p
  | p :: rest => p ++ sep ++ join sep rest
  end.

(** [str(n)] as an f-string prints an integer. *)
Definition str_of_int (n : Z) : string :=
  NilZero.string_of_int (Z.to_int n).

(** The constants of Python's [string] module. *)
Definition ascii_lowercase : str := lit "abcdefghijklmnopqrstuvwxyz".
Definition ascii_uppercase : str := lit "ABCDEFGHIJKLMNOPQRSTUVWXYZ".
Definition string_digits : str := lit "0123456789".
Definition double_quote : ascii := ascii_of_nat 34.
Definition punctuation : str :=
  lit "!" ++ [double_quote] ++ lit "#$%&'()*+,-./:;<=>?@[\]^_`{|}~".

(** ** Enumerations and policy *)

Inductive PasswordStrength := BASIC | STRONG | PARANOID.

Inductive PasswordCategory := ALPHANUMERIC | COMPLEX | PASSPHRASE.

Record PasswordPolicy := {
  min_length : Z;
  max_length : Z;
  min_digits : Z;
  min_special : Z;
  min_upper : Z;
  min_lower : Z;
  exclude_chars : str;
  exclude_similar : bool
}.

(** The dataclass defaults. *)
Definition default_policy : PasswordPolicy := {|
  min_length := 12;
  max_length := 128;
  min_digits := 2;
  min_special := 2;
  min_upper := 1;
  min_lower := 1;
  exclude_chars := [];
  exclude_similar := true
|}.

Inductive Exception :=
| PasswordGeneratorError (message : string)
| PolicyViolationError (message : string)
| InputValidationError (message : string)
| IndexError (message : string)
| ValueError (message : string).

(** ** CharacterLake *)

Record CharacterLake := {
  policy : PasswordPolicy;
  lowercase : str;
  uppercase : str;
  digits : str;
  special : str
}.

Definition similar_chars : str := lit "l1IoO0".

(** One pass of the loop body of [_exclude_similar_chars]. *)
Definition exclude_similar_step (self : CharacterLake) (char : ascii)
  : CharacterLake := {|
  policy := policy self;
  lowercase := replace (lower char) (lowercase self);
  uppercase := replace (upper char) (uppercase self);
  digits := replace char (digits self);
  special := special self
|}.

Definition _exclude_similar_chars (self : CharacterLake) : CharacterLake :=
  fold_left exclude_similar_step similar_chars self.

(** One pass of the loop body of [_exclude_specified_chars], for an
    excluded character below 256: each of its case forms is then one
    character, or meets no class. *)
Definition exclude_specified_step (self : CharacterLake) (char : ascii)
  : CharacterLake := {|
  policy := policy self;
  lowercase := replace (lower char) (lowercase self);
  uppercase := replace (upper char) (uppercase self);
  digits := replace char (digits self);
  special := replace char (special self)
|}.

Definition _exclude_specified_chars (self : CharacterLake) : CharacterLake :=
  fold_left exclude_specified_step (exclude_chars (policy self)) self.

(** A non-empty string is truthy. *)
Definition truthy (s : str) : bool :=
  match s with [] => false | _ :: _ => true end.

Definition _initialize_character_sets (pol : PasswordPolicy) : CharacterLake :=
  let self := {| policy := pol;
                 lowercase := ascii_lowercase;
                 uppercase := ascii_uppercase;
                 digits := string_digits;
                 special := punctuation |} in
  let self := if exclude_similar pol then _exclude_similar_chars self else self in
  let self := if truthy (exclude_chars pol) then _exclude_specified_chars self else self in
  self.

(** [CharacterLake(policy)]. *)
Definition CharacterLake_init (pol : PasswordPolicy) : CharacterLake :=
  _initialize_character_sets pol.

(** ** Results of calls that may raise *)

Inductive Outcome (A : Type) :=
| Return (a : A)
| Raise (e : Exception).

Arguments Return {A} a.
Arguments Raise {A} e.

(** [get_character_set]: the final [else: raise ValueError] of the source
    is not reachable from a member of [PasswordCategory]. *)
Definition get_character_set (self : CharacterLake) (category : PasswordCategory)
  : Outcome str :=
  match category with
  | ALPHANUMERIC => Return (lowercase self ++ uppercase self ++ digits self)
  | COMPLEX =>
      Return (lowercase self ++ uppercase self ++ digits self ++ special self)
  | PASSPHRASE => Return (lowercase self ++ uppercase self)
  end.

(** [sum(1 for c in password if c in cls)]. *)
Definition count_in (cls : str) (password : str) : nat :=
  List.length (filter (contains cls) password).

Definition validate_policy_compliance (self : CharacterLake)
    (password : str) (category : PasswordCategory) : bool :=
  if (Z.of_nat (List.length password) <? min_length (policy self))%Z then false
  else if (Z.of_nat (List.length password) >? max_length (policy self))%Z then false
  else
    let digit_count := Z.of_nat (count_in (digits self) password) in
    let special_count := Z.of_nat (count_in (special self) password) in
    let upper_count := Z.of_nat (count_in (uppercase self) password) in
    let lower_count := Z.of_nat (count_in (lowercase self) password) in
    match category with
    | ALPHANUMERIC =>
        (digit_count >=? min_digits (policy self))%Z &&
        (upper_count >=? min_upper (policy self))%Z &&
        (lower_count >=? min_lower (policy self))%Z
    | COMPLEX =>
        (digit_count >=? min_digits (policy self))%Z &&
        (special_count >=? min_special (policy self))%Z &&
        (upper_count >=? min_upper (policy self))%Z &&
        (lower_count >=? min_lower (policy self))%Z
    | PASSPHRASE =>
        (upper_count >=? min_upper (policy self))%Z &&
        (lower_count >=? min_lower (policy self))%Z
    end.

(** ** Randomness and exceptions *)

(** The two sources of the program: the [random] module (a fast
    pseudorandom generator) and [secrets] (the operating system's
    generator).  Each has a tape of raw draws and a cursor. *)
Record Entropy := {
  random_tape : nat -> nat;
  random_drawn : nat;
  secrets_tape : nat -> nat;
  secrets_drawn : nat
}.

Definition M (A : Type) : Type := Entropy -> Outcome A * Entropy.

Definition ret {A : Type} (a : A) : M A := fun w => (Return a, w).

Definition raise {A : Type} (e : Exception) : M A := fun w => (Raise e, w).

Definition bind {A B : Type} (m : M A) (k : A -> M B) : M B :=
  fun w =>
    match m w with
    | (Return a, w1) => k a w1
    | (Raise e, w1) => (Raise e, w1)
    end.

Notation "x <- m ;; k" := (bind m (fun x => k))
  (at level 61, m at next level, right associativity).

Inductive Generator := random_module | secrets_module.

(** Number of draws a source has served so far. *)
Definition drawn (g : Generator) (w : Entropy) : nat :=
  match g with
  | random_module => random_drawn w
  | secrets_module => secrets_drawn w
  end.

Definition advance (g : Generator) (w : Entropy) : Entropy :=
  match g with
  | random_module =>
      {| random_tape := random_tape w; random_drawn := S (random_drawn w);
         secrets_tape := secrets_tape w; secrets_drawn := secrets_drawn w |}
  | secrets_module =>
      {| random_tape := random_tape w; random_drawn := random_drawn w;
         secrets_tape := secrets_tape w; secrets_drawn := S (secrets_drawn w) |}
  end.

Definition raw (g : Generator) (w : Entropy) : nat :=
  match g with
  | random_module => random_tape w (random_drawn w)
  | secrets_module => secrets_tape w (secrets_drawn w)
  end.

(** [randbelow(n)]: an integer in [0, n). *)
Definition randbelow (g : Generator) (n : nat) : M nat :=
  fun w =>
    match n with
    | 0 => (Raise (ValueError "Upper bound must be positive."), w)
    | S _ => (Return (raw g w mod n), advance g w)
    end.

(** [random.choice(seq)] and [secrets.choice(seq)]. *)
Definition choice {A : Type} (g : Generator) (seq : list A) : M A :=
  match seq with
  | [] => raise (IndexError "Cannot choose from an empty sequence")
  | x :: _ => i <- randbelow g (List.length seq) ;; ret (nth i seq x)
  end.

(** [[e for _ in range(n)]]: [n] evaluations of [e], in order. *)
Fixpoint comprehension {A : Type} (n : nat) (e : M A) : M (list A) :=
  match n with
  | 0 => ret []
  | S k => x <- e ;; xs <- comprehension k e ;; ret (x :: xs)
  end.

(** [x[i] = v]. *)
Fixpoint setitem {A : Type} (x : list A) (i : nat) (v : A) : list A :=
  match x, i with
  | [], _ => []
  | _ :: t, 0 => v :: t
  | h :: t, S i' => h :: setitem t i' v
  end.

(** [x[i], x[j] = x[j], x[i]]. *)
Definition swap_items {A : Type} (x : list A) (i j : nat) : list A :=
  match nth_error x i, nth_error x j with
  | Some xi, Some xj => setitem (setitem x i xj) j xi
  | _, _ => x
  end.

(** The loop of [Random.shuffle]:
    [for i in reversed(range(1, len(x))): j = randbelow(i + 1); swap]. *)
Fixpoint shuffle_from {A : Type} (i : nat) (x : list A) : M (list A) :=
  match i with
  | 0 => ret x
  | S i' =>
      j <- randbelow secrets_module (S i) ;;
      shuffle_from i' (swap_items x i j)
  end.

(** [secrets.SystemRandom().shuffle(x)]. *)
Definition shuffle {A : Type} (x : list A) : M (list A) :=
  shuffle_from (List.length x - 1) x.

(** ** PasswordGenerator *)

Record PasswordGenerator := {
  generator_policy : PasswordPolicy;
  character_lake : CharacterLake;
  wordlist : list str
}.

(** [PasswordGenerator(policy)]; [words] is what [_load_wordlist] read
    from the word-list file (the stripped, non-blank lines).  A file that
    cannot be read makes the constructor raise, and then there is no
    generator to call. *)
Definition PasswordGenerator_init (pol : PasswordPolicy) (words : list str)
  : PasswordGenerator := {|
  generator_policy := pol;
  character_lake := CharacterLake_init pol;
  wordlist := words
|}.

Definition select_generator (strength : PasswordStrength) : Generator :=
  match strength with
  | BASIC => random_module
  | _ => secrets_module
  end.

(** The loop [for i in range(len(words)): if secrets.randbelow(2): ...]. *)
Fixpoint capitalize_randomly (words : list str) : M (list str) :=
  match words with
  | [] => ret []
  | w :: rest =>
      r <- randbelow secrets_module 2 ;;
      rest' <- capitalize_randomly rest ;;
      ret ((if r =? 0 then w else capitalize w) :: rest')
  end.

Definition separators : list str := [lit "-"; lit "_"; lit "."; lit " "; []].

Definition _generate_passphrase (self : PasswordGenerator)
    (word_count : Z) (strength : PasswordStrength) : M str :=
  match wordlist self with
  | [] => raise (PasswordGeneratorError "Passphrase generation requires a wordlist")
  | _ :: _ =>
      let generator := select_generator strength in
      words <- comprehension (Z.to_nat word_count)
                 (choice generator (wordlist self)) ;;
      words <-
        match strength with
        | BASIC => ret words
        | STRONG =>
            words <- capitalize_randomly words ;;
            d <- choice secrets_module (digits (character_lake self)) ;;
            ret (words ++ [[d]])
        | PARANOID =>
            let words := map capitalize words in
            d <- choice secrets_module (digits (character_lake self)) ;;
            s <- choice secrets_module (special (character_lake self)) ;;
            shuffle ((words ++ [[d]]) ++ [[s]])
        end ;;
      separator <-
        match strength with
        | BASIC => ret (lit " ")
        | _ => choice secrets_module separators
        end ;;
      ret (join separator words)
  end.

Definition max_attempts : nat := 100.

Definition policy_violation_message : string :=
  ("Could not generate password that meets policy requirements after "
   ++ str_of_int (Z.of_nat max_attempts) ++ " attempts")%string.

(** The [while attempts < max_attempts] loop; [remaining] is
    [max_attempts - attempts]. *)
Fixpoint attempt_loop (self : PasswordGenerator) (generator : Generator)
    (characters : str) (length : Z) (category : PasswordCategory)
    (remaining : nat) : M str :=
  match remaining with
  | 0 => raise (PolicyViolationError policy_violation_message)
  | S remaining' =>
      password <- comprehension (Z.to_nat length) (choice generator characters) ;;
      if validate_policy_compliance (character_lake self) password category
      then ret password
      else attempt_loop self generator characters length category remaining'
  end.

Definition input_validation_message (pol : PasswordPolicy) : string :=
  ("Password length must be between " ++ str_of_int (min_length pol)
   ++ " and " ++ str_of_int (max_length pol))%string.

Definition generate_password (self : PasswordGenerator) (length : Z)
    (category : PasswordCategory) (strength : PasswordStrength) : M str :=
  if negb ((min_length (generator_policy self) <=? length)%Z &&
           (length <=? max_length (generator_policy self))%Z)
  then raise (InputValidationError
                (input_validation_message (generator_policy self)))
  else
    match category with
    | PASSPHRASE => _generate_passphrase self length strength
    | _ =>
        match get_character_set (character_lake self) category with
        | Raise e => raise e
        | Return characters =>
            attempt_loop self (select_generator strength) characters
              length category max_attempts
        end
    end.

Definition generate_multiple (self : PasswordGenerator) (count length : Z)
    (category : PasswordCategory) (strength : PasswordStrength)
  : M (list str) :=
  comprehension (Z.to_nat count)
    (generate_password self length category strength).

(** ** Concrete data used in the examples *)

(** A tape that serves [a * k + b] as its [k]-th raw draw. *)
Definition linear_tape (a b : nat) : nat -> nat := fun k => a * k + b.

Definition entropy0 (a b : nat) : Entropy := {|
  random_tape := linear_tape a b; random_drawn := 0;
  secrets_tape := linear_tape a b; secrets_drawn := 0
|}.

(** A short word list, the first words of the corpus the program ships
    with. *)
Definition sample_words : list str :=
  [lit "abacus"; lit "abdomen"; lit "ablaze"; lit "able"].

(** ** Vocabulary of the statements *)

Definition empty_sequence_error : Exception :=
  IndexError "Cannot choose from an empty sequence".

Section AttemptLoopOutcome.
Variable self : PasswordGenerator.
Variable g : Generator.
Variable characters : str.
Variable len : Z.
Variable category : PasswordCategory.

  (** A candidate of the loop: [len] characters of the alphabet. *)
Definition candidate (c : str) : Prop :=
    List.length c = Z.to_nat len /\ Forall (fun x => In x characters) c.

Definition rejected (c : str) : Prop :=
    candidate c /\
    validate_policy_compliance (character_lake self) c category = false.

Definition accepted (c : str) : Prop :=
    candidate c /\
    validate_policy_compliance (character_lake self) c category = true.

  (** The three ways the loop ends, with the candidates it went through
      and the draws it spent. *)
Definition loop_outcome (r : nat) (w : Entropy) (o : Outcome str)
      (w' : Entropy) : Prop :=
    match o with
    | Return s =>
        exists tried, List.length tried < r /\ Forall rejected tried /\
          accepted s /\
          drawn g w' = drawn g w + S (List.length tried) * Z.to_nat len
    | Raise e =>
        (e = PolicyViolationError policy_violation_message /\
         exists tried, List.length tried = r /\ Forall rejected tried /\
           drawn g w' = drawn g w + r * Z.to_nat len) \/
        (e = empty_sequence_error /\ characters = [] /\
         (0 < len)%Z /\ w' = w)
    end.

End AttemptLoopOutcome.

(** The per-class minimums that [validate_policy_compliance] compares for
    a category, as propositions. *)
Definition meets_minimums (self : CharacterLake) (password : str)
    (category : PasswordCategory) : Prop :=
  let pol := policy self in
  match category with
  | ALPHANUMERIC =>
      (min_digits pol <= Z.of_nat (count_in (digits self) password))%Z /\
      (min_upper pol <= Z.of_nat (count_in (uppercase self) password))%Z /\
      (min_lower pol <= Z.of_nat (count_in (lowercase self) password))%Z
  | COMPLEX =>
      (min_digits pol <= Z.of_nat (count_in (digits self) password))%Z /\
      (min_special pol <= Z.of_nat (count_in (special self) password))%Z /\
      (min_upper pol <= Z.of_nat (count_in (uppercase self) password))%Z /\
      (min_lower pol <= Z.of_nat (count_in (lowercase self) password))%Z
  | PASSPHRASE =>
      (min_upper pol <= Z.of_nat (count_in (uppercase self) password))%Z /\
      (min_lower pol <= Z.of_nat (count_in (lowercase self) password))%Z
  end.

(** The alphabet of a category, without the [Outcome] wrapper. *)
Definition alphabet (self : CharacterLake) (category : PasswordCategory) : str :=
  match get_character_set self category with
  | Return characters => characters
  | Raise _ => []
  end.

(** A policy whose lower length bound is negative and that asks for no
    character of any class. *)
Definition lenient_policy : PasswordPolicy := {|
  min_length := -1;
  max_length := 8;
  min_digits := 0;
  min_special := 0;
  min_upper := 0;
  min_lower := 0;
  exclude_chars := [];
  exclude_similar := true
|}.

(** A policy that excludes every letter and digit and asks for one digit
    more than a 12-character password has. *)
Definition no_alphanumerics_policy : PasswordPolicy := {|
  min_length := 12;
  max_length := 128;
  min_digits := 13;
  min_special := 2;
  min_upper := 1;
  min_lower := 1;
  exclude_chars := lit "abcdefghijklmnopqrstuvwxyz0123456789";
  exclude_similar := true
|}.

(** The default policy with [min_digits] one above a 12-character
    password. *)
Definition thirteen_digits_policy : PasswordPolicy := {|
  min_length := 12;
  max_length := 128;
  min_digits := 13;
  min_special := 2;
  min_upper := 1;
  min_lower := 1;
  exclude_chars := [];
  exclude_similar := true
|}.

(** [raises_only P m]: whenever [m] raises, the exception satisfies [P]. *)
Definition raises_only {A : Type} (P : Exception -> Prop) (m : M A) : Prop :=
  forall w e w', m w = (Raise e, w') -> P e.

Definition missing_wordlist_error : Exception :=
  PasswordGeneratorError "Passphrase generation requires a wordlist".

(** The characters a policy excludes: the listed ones and, when
    [exclude_similar] is set, the similar-looking ones. *)
Definition excluded (pol : PasswordPolicy) (c : ascii) : Prop :=
  In c (exclude_chars pol) \/
  (exclude_similar pol = true /\ In c similar_chars).

Definition set_exclude_similar (b : bool) (pol : PasswordPolicy)
  : PasswordPolicy := {|
  min_length := min_length pol;
  max_length := max_length pol;
  min_digits := min_digits pol;
  min_special := min_special pol;
  min_upper := min_upper pol;
  min_lower := min_lower pol;
  exclude_chars := exclude_chars pol;
  exclude_similar := b
|}.

(** The default policy with the letter [a] excluded. *)
Definition exclude_a_policy : PasswordPolicy := {|
  min_length := 12;
  max_length := 128;
  min_digits := 2;
  min_special := 2;
  min_upper := 1;
  min_lower := 1;
  exclude_chars := lit "a";
  exclude_similar := true
|}.

(** A policy that excludes every special character. *)
Definition no_special_policy : PasswordPolicy := {|
  min_length := 12;
  max_length := 128;
  min_digits := 2;
  min_special := 2;
  min_upper := 1;
  min_lower := 1;
  exclude_chars := punctuation;
  exclude_similar := true
|}.

(** The classes that [get_character_set] concatenates for a category. *)
Definition classes_of (self : CharacterLake) (category : PasswordCategory)
  : list str :=
  match category with
  | ALPHANUMERIC => [lowercase self; uppercase self; digits self]
  | COMPLEX => [lowercase self; uppercase self; digits self; special self]
  | PASSPHRASE => [lowercase self; uppercase self]
  end.

(** Two lakes with the same four classes. *)
Definition same_classes (a b : CharacterLake) : Prop :=
  lowercase a = lowercase b /\ uppercase a = uppercase b /\
  digits a = digits b /\ special a = special b.

Definition set_minimums (d sp u l : Z) (pol : PasswordPolicy)
  : PasswordPolicy := {|
  min_length := min_length pol;
  max_length := max_length pol;
  min_digits := d;
  min_special := sp;
  min_upper := u;
  min_lower := l;
  exclude_chars := exclude_chars pol;
  exclude_similar := exclude_similar pol
|}.

(** [calls m w xs w']: calling [m] again and again from [w] returned the
    members of [xs], in this order, and left the tapes at [w']. *)
Fixpoint calls {A : Type} (m : M A) (w : Entropy) (xs : list A)
    (w' : Entropy) : Prop :=
  match xs with
  | [] => w' = w
  | x :: rest => exists w1, m w = (Return x, w1) /\ calls m w1 rest w'
  end.

(** What a returned string of a character category satisfies. *)
Definition character_postcondition (pol : PasswordPolicy) (len : Z)
    (category : PasswordCategory) (s : str) : Prop :=
  Z.of_nat (List.length s) = Z.max 0 len /\
  Forall (fun c => In c (alphabet (CharacterLake_init pol) category)) s /\
  meets_minimums (CharacterLake_init pol) s category.

(** The shuffle loop as a function of its draws: [js i] is the index
    drawn when the loop is at position [i]. *)
Fixpoint fisher_yates {A : Type} (i : nat) (js : nat -> nat) (x : list A)
  : list A :=
  match i with
  | 0 => x
  | S i' => fisher_yates i' js (swap_items x i (js i))
  end.

(** The transposition of the positions [i] and [j]. *)
Definition transpose (i j p : nat) : nat :=
  if p =? j then i else if p =? i then j else p.

(** Text of 7-bit characters, on which the case maps above are Python's. *)
Definition is_7bit (c : ascii) : bool := nat_of_ascii c <? 128.

Definition ascii_text (s : str) : Prop := forallb is_7bit s = true.






(** ** Further vocabulary *)

(** The four classes of a lake, in the order of [get_character_set]. *)
Definition classes (self : CharacterLake) : list str :=
  [lowercase self; uppercase self; digits self; special self].

(** The sum of the minimums that [validate_policy_compliance] compares
    for a category. *)
Definition required_total (pol : PasswordPolicy) (category : PasswordCategory)
  : Z :=
  match category with
  | ALPHANUMERIC => min_digits pol + min_upper pol + min_lower pol
  | COMPLEX => min_digits pol + min_special pol + min_upper pol + min_lower pol
  | PASSPHRASE => min_upper pol + min_lower pol
  end%Z.

(** No character occurs twice in [s]. *)
Fixpoint distinct (s : str) : bool :=
  match s with
  | [] => true
  | c :: rest => negb (contains rest c) && distinct rest
  end.

(** A policy whose minimums are each within a 12-character password and
    together exceed it. *)
Definition crowded_policy : PasswordPolicy := {|
  min_length := 12;
  max_length := 128;
  min_digits := 5;
  min_special := 5;
  min_upper := 2;
  min_lower := 2;
  exclude_chars := [];
  exclude_similar := true
|}.

Definition other (g : Generator) : Generator :=
  match g with
  | random_module => secrets_module
  | secrets_module => random_module
  end.

Definition tape_of (g : Generator) (w : Entropy) : nat -> nat :=
  match g with
  | random_module => random_tape w
  | secrets_module => secrets_tape w
  end.

(** [m] draws from the source [g] only: it leaves both tapes as they are
    and does not move the cursor of the other source. *)
Definition draws_only_from {A : Type} (g : Generator) (m : M A) : Prop :=
  forall w,
    random_tape (snd (m w)) = random_tape w /\
    secrets_tape (snd (m w)) = secrets_tape w /\
    drawn (other g) (snd (m w)) = drawn (other g) w.

(** Two states of the randomness that look the same to the source [g]. *)
Definition agree (g : Generator) (w1 w2 : Entropy) : Prop :=
  drawn g w1 = drawn g w2 /\ forall k, tape_of g w1 k = tape_of g w2 k.

(** The result of [m] is a function of what the source [g] holds. *)
Definition reads_only {A : Type} (g : Generator) (m : M A) : Prop :=
  forall w1 w2,
    agree g w1 w2 ->
    fst (m w1) = fst (m w2) /\ agree g (snd (m w1)) (snd (m w2)).

(** Two states with the same [random] tape and different [secrets]
    tapes. *)
Definition entropy_pair (a b c d : nat) : Entropy := {|
  random_tape := linear_tape a b; random_drawn := 0;
  secrets_tape := linear_tape c d; secrets_drawn := 0
|}.

(** What the STRONG loop may turn a word into. *)
Definition as_is_or_capitalized (word token : str) : Prop :=
  token = word \/ token = capitalize word.

(** The default policy with every digit excluded. *)
Definition no_digits_policy : PasswordPolicy := {|
  min_length := 12;
  max_length := 128;
  min_digits := 2;
  min_special := 2;
  min_upper := 1;
  min_lower := 1;
  exclude_chars := lit "0123456789";
  exclude_similar := true
|}.

(** ** Loading the word list *)

(** [c.isspace()] for a code point below 256: the ASCII white space, the
    four separators 28..31, NEL and the no-break space. *)
Definition isspace (c : ascii) : bool :=
  let n := nat_of_ascii c in
  ((9 <=? n) && (n <=? 13)) || ((28 <=? n) && (n <=? 32)) ||
  (n =? 133) || (n =? 160).

(** [s.lstrip()], [s.rstrip()] and [s.strip()]. *)
Fixpoint lstrip (s : str) : str :=
  match s with
  | [] => []
  | c :: rest => if isspace c then lstrip rest else s
  end.

Definition rstrip (s : str) : str := rev (lstrip (rev s)).

Definition strip (s : str) : str := rstrip (lstrip s).

Definition wordlist_load_error : Exception :=
  PasswordGeneratorError "Failed to load wordlist for passphrase generation".

(** What opening the word-list file and reading it as UTF-8 text gives:
    [IOError], a [UnicodeDecodeError] for bytes that are not UTF-8, or
    the lines of the file. *)
Inductive WordlistFile :=
| Unreadable
| Undecodable (message : string)
| Lines (lines : list str).

(** [_load_wordlist].  The [except IOError] clause turns an unreadable
    file into [PasswordGeneratorError]; a [UnicodeDecodeError] is a
    [ValueError], which the clause does not catch, so it leaves the
    function as it is. *)
Definition _load_wordlist (file : WordlistFile) : Outcome (list str) :=
  match file with
  | Unreadable => Raise wordlist_load_error
  | Undecodable message => Raise (ValueError message)
  | Lines lines =>
      Return (map strip (filter (fun line => truthy (strip line)) lines))
  end.

(** [PasswordGenerator.__init__]: [policy or PasswordPolicy()], the lake,
    and the word list ([WORDLIST_FILE] is a non-empty constant, so the
    list is always loaded). *)
Definition PasswordGenerator_new (pol : option PasswordPolicy)
    (file : WordlistFile) : Outcome PasswordGenerator :=
  let pol := match pol with Some p => p | None => default_policy end in
  match _load_wordlist file with
  | Raise e => Raise e
  | Return words => Return (PasswordGenerator_init pol words)
  end.


(** ** The command line *)

(** The values that the result dictionary holds. *)
Inductive Json :=
| JString (s : str)
| JStrings (l : list str)
| JInt (n : Z).

(** The namespace that [argparse] returns.  [--category] and
    [--strength] are restricted to three names each, which the two
    dictionaries of [run_from_args] map one to one to the enumerations;
    [--length] and [--count] are any integers. *)
Record Args := {
  args_length : Z;
  args_category : PasswordCategory;
  args_strength : PasswordStrength;
  args_count : Z;
  args_output : option str
}.

Definition category_name (category : PasswordCategory) : str :=
  match category with
  | ALPHANUMERIC => lit "alphanumeric"
  | COMPLEX => lit "complex"
  | PASSPHRASE => lit "passphrase"
  end.

Definition strength_name (strength : PasswordStrength) : str :=
  match strength with
  | BASIC => lit "basic"
  | STRONG => lit "strong"
  | PARANOID => lit "paranoid"
  end.

(** [isinstance(e, PasswordGeneratorError)]: the base class and its two
    subclasses. *)
Definition is_generator_error (e : Exception) : bool :=
  match e with
  | PasswordGeneratorError _ | PolicyViolationError _
  | InputValidationError _ => true
  | IndexError _ | ValueError _ => false
  end.

(** How [run_from_args] ends.  The texts it prints are left out: what is
    kept is the stream, the exit status and the data.  Writing to the
    standard streams is taken to succeed. *)
Inductive CliOutcome :=
| Printed (result : list (string * Json))
    (* [print(json.dumps(result, indent=2))], normal return *)
| Saved (filename : str) (result : list (string * Json))
    (* [json.dump] to the file, then "Results saved to ..." *)
| SaveFailed (filename : str)
    (* "Failed to save file: ..." on stderr, [sys.exit(1)] *)
| Error (e : Exception)
    (* [except PasswordGeneratorError]: "Error: ..." on stderr, exit 1 *)
| UnexpectedError (e : Exception).
    (* [except Exception]: "Unexpected error: ..." on stderr, exit 1 *)

Definition handle (e : Exception) : CliOutcome :=
  if is_generator_error e then Error e else UnexpectedError e.

Definition exit_status (o : CliOutcome) : Z :=
  match o with
  | Printed _ | Saved _ _ => 0
  | SaveFailed _ | Error _ | UnexpectedError _ => 1
  end.

(** The four entries that [result.update] adds. *)
Definition metadata (args : Args) : list (string * Json) :=
  [("category"%string, JString (category_name (args_category args)));
   ("strength"%string, JString (strength_name (args_strength args)));
   ("length"%string, JInt (args_length args));
   ("count"%string, JInt (args_count args))].

(** The output stage: a non-empty [--output] writes the file, which
    works or raises [IOError] as [can_write] says; otherwise the result
    is printed. *)
Definition output_stage (args : Args) (can_write : str -> bool)
    (result : list (string * Json)) : CliOutcome :=
  match args_output args with
  | Some (c :: name) =>
      if can_write (c :: name) then Saved (c :: name) result
      else SaveFailed (c :: name)
  | _ => Printed result
  end.

(** [run_from_args] after [parser.parse_args()]. *)
Definition run_from_args (args : Args) (file : WordlistFile)
    (can_write : str -> bool) (w : Entropy) : CliOutcome * Entropy :=
  match PasswordGenerator_new None file with
  | Raise e => (handle e, w)
  | Return generator =>
      if (args_count args =? 1)%Z then
        match generate_password generator (args_length args)
                (args_category args) (args_strength args) w with
        | (Return password, w') =>
            (output_stage args can_write
               (("password"%string, JString password) :: metadata args), w')
        | (Raise e, w') => (handle e, w')
        end
      else
        match generate_multiple generator (args_count args) (args_length args)
                (args_category args) (args_strength args) w with
        | (Return passwords, w') =>
            (output_stage args can_write
               (("passwords"%string, JStrings passwords) :: metadata args), w')
        | (Raise e, w') => (handle e, w')
        end
  end.

(** The result that an outcome carries, if it carries one. *)
Definition result_of (o : CliOutcome) : option (list (string * Json)) :=
  match o with
  | Printed result | Saved _ result => Some result
  | _ => None
  end.

(** Sample command lines over a three-line word-list file. *)
Definition sample_file : WordlistFile :=
  Lines [lit "abacus"; lit "  ablaze "; lit "able"].

Definition sample_args : Args := {|
  args_length := 12;
  args_category := COMPLEX;
  args_strength := STRONG;
  args_count := 2;
  args_output := None
|}.

Definition short_args : Args := {|
  args_length := 8;
  args_category := COMPLEX;
  args_strength := STRONG;
  args_count := 3;
  args_output := None
|}.

Definition zero_count_args : Args := {|
  args_length := 8;
  args_category := COMPLEX;
  args_strength := STRONG;
  args_count := 0;
  args_output := None
|}.

Definition passphrase_args (n count : Z) (strength : PasswordStrength)
  : Args := {|
  args_length := n;
  args_category := PASSPHRASE;
  args_strength := strength;
  args_count := count;
  args_output := None
|}.

(** What the STRONG loop makes of [words] on the draws of [tape] from
    number [start] on: the word whose [randbelow(2)] is not 0 is
    capitalized. *)
Fixpoint capitalized_by (tape : nat -> nat) (start : nat) (words : list str)
  : list str :=
  match words with
  | [] => []
  | word :: rest =>
      (if tape start mod 2 =? 0 then word else capitalize word)
        :: capitalized_by tape (S start) rest
  end.

(** * Properties *)

Example lake_default_lowercase :
  lowercase (CharacterLake_init default_policy) = lit "abcdefghjkmnpqrstuvwxyz".
Proof. reflexivity. Qed.

Example lake_default_digits :
  digits (CharacterLake_init default_policy) = lit "23456789".
Proof. reflexivity. Qed.

Example str_of_int_100 : str_of_int 100 = "100"%string.
Proof. reflexivity. Qed.

(** ** The monad *)


Lemma bind_Raise {A B : Type} (m : M A) (k : A -> M B) w e w' :
  bind m k w = (Raise e, w') ->
  m w = (Raise e, w') \/
  exists a w1, m w = (Return a, w1) /\ k a w1 = (Raise e, w').
Proof.
  unfold bind. destruct (m w) as [[a | e0] w1]; intros H.
  - right. now exists a, w1.
  - left. now inversion H.
Qed.

Lemma bind_step {A B : Type} (m : M A) (k : A -> M B) w a w1 :
  m w = (Return a, w1) -> bind m k w = k a w1.
Proof. unfold bind. now intros ->. Qed.

Lemma bind_stop {A B : Type} (m : M A) (k : A -> M B) w e w1 :
  m w = (Raise e, w1) -> bind m k w = (Raise e, w1).
Proof. unfold bind. now intros ->. Qed.

(** ** Draws *)

Lemma drawn_advance g w : drawn g (advance g w) = S (drawn g w).
Proof. now destruct g. Qed.

(** What one [choice] does: it raises on an empty sequence without
    drawing, and otherwise serves a member of the sequence for one draw. *)
Lemma choice_spec {A : Type} (g : Generator) (seq : list A) w :
  match choice g seq w with
  | (Return x, w') => In x seq /\ w' = advance g w
  | (Raise e, w') => seq = [] /\ e = empty_sequence_error /\ w' = w
  end.
Proof.
  destruct seq as [| a seq].
  - cbn. auto.
  - unfold choice, bind, randbelow, ret. cbn [List.length].
    split; [| reflexivity].
    apply nth_In. apply Nat.mod_upper_bound. discriminate.
Qed.

Lemma choice_Return {A : Type} (g : Generator) (seq : list A) w x w' :
  choice g seq w = (Return x, w') -> In x seq /\ w' = advance g w.
Proof. intros H. generalize (choice_spec g seq w). now rewrite H. Qed.

Lemma choice_Raise {A : Type} (g : Generator) (seq : list A) w e w' :
  choice g seq w = (Raise e, w') ->
  seq = [] /\ e = empty_sequence_error /\ w' = w.
Proof. intros H. generalize (choice_spec g seq w). now rewrite H. Qed.

Lemma choice_total {A : Type} (g : Generator) (seq : list A) w :
  seq <> [] -> exists x, choice g seq w = (Return x, advance g w).
Proof.
  intros Hne. generalize (choice_spec g seq w).
  destruct (choice g seq w) as [[x | e] w'].
  - intros [_ ->]. now exists x.
  - intros [-> _]. contradiction.
Qed.

(** [n] draws from one sequence: a list of [n] members for [n] draws,
    or the empty-sequence error before anything was drawn. *)
Lemma draw_many_spec {A : Type} (g : Generator) (seq : list A) n w :
  match comprehension n (choice g seq) w with
  | (Return l, w') =>
      List.length l = n /\ Forall (fun x => In x seq) l /\
      drawn g w' = drawn g w + n
  | (Raise e, w') => seq = [] /\ 0 < n /\ e = empty_sequence_error /\ w' = w
  end.
Proof.
  revert w. induction n as [| n IH]; intros w; cbn.
  - repeat split; auto.
  - unfold bind at 1.
    generalize (choice_spec g seq w).
    destruct (choice g seq w) as [[x | e] w1].
    + intros [Hx ->]. unfold bind.
      specialize (IH (advance g w)).
      destruct (comprehension n (choice g seq) (advance g w)) as [[l | e] w2].
      * destruct IH as (Hl & Hall & Hd). cbn.
        repeat split; [now rewrite Hl | now constructor |].
        rewrite Hd, drawn_advance. lia.
      * destruct IH as (-> & _). contradiction.
    + intros (-> & -> & ->). repeat split; auto. lia.
Qed.


Lemma draw_many_Raise {A : Type} (g : Generator) (seq : list A) n w e w' :
  comprehension n (choice g seq) w = (Raise e, w') ->
  seq = [] /\ 0 < n /\ e = empty_sequence_error /\ w' = w.
Proof. intros H. generalize (draw_many_spec g seq n w). now rewrite H. Qed.

(** ** The attempt loop *)

Section AttemptLoop.
Variable self : PasswordGenerator.
Variable g : Generator.
Variable characters : str.
Variable len : Z.
Variable category : PasswordCategory.

Lemma attempt_loop_spec r w :
    loop_outcome self g characters len category r w
      (fst (attempt_loop self g characters len category r w))
      (snd (attempt_loop self g characters len category r w)).
Proof.
    unfold loop_outcome, accepted, rejected, candidate.
    revert w. induction r as [| r IH]; intros w.
    - cbn. left. split; [reflexivity |]. exists []. repeat split; auto.
    - cbn [attempt_loop]. unfold bind.
      generalize (draw_many_spec g characters (Z.to_nat len) w).
      destruct (comprehension (Z.to_nat len) (choice g characters) w)
        as [[c | e] w1].
      + intros (Hlen & Hall & Hd).
        destruct (validate_policy_compliance (character_lake self) c category)
          eqn:Hv.
        * cbn. exists []. repeat split; auto; cbn; lia.
        * specialize (IH w1).
          destruct (attempt_loop self g characters len category r w1)
            as [[s | e] w2]; cbn in *.
          -- destruct IH as (tried & Hlt & Hrej & Hacc & Hd2).
             exists (c :: tried). cbn [List.length].
             split; [lia |]. split; [| split; [exact Hacc | lia]].
             constructor; [now repeat split | exact Hrej].
          -- destruct IH as [(-> & tried & Hl & Hrej & Hd2) | (-> & Hc & Hpos & ->)].
             ++ left. split; [reflexivity |].
                exists (c :: tried). cbn. repeat split; try lia.
                constructor; [now repeat split | exact Hrej].
             ++ exfalso. subst characters.
                destruct c as [| x c]; [cbn in Hlen; lia |].
                inversion Hall; subst. contradiction.
      + intros (Hc & Hpos & -> & ->). cbn. right. repeat split; auto. lia.
Qed.

End AttemptLoop.

(** ** Compliance *)

Lemma count_in_le cls password : count_in cls password <= List.length password.
Proof. unfold count_in. apply filter_length_le. Qed.

Lemma validate_true_inv self password category :
  validate_policy_compliance self password category = true ->
  (min_length (policy self) <= Z.of_nat (List.length password)
     <= max_length (policy self))%Z /\
  meets_minimums self password category.
Proof.
  unfold validate_policy_compliance, meets_minimums.
  destruct (Z.ltb_spec (Z.of_nat (List.length password)) (min_length (policy self)));
    [discriminate |].
  destruct (Z.gtb_spec (Z.of_nat (List.length password)) (max_length (policy self)));
    [discriminate |].
  destruct category; intros Hv;
    repeat (apply andb_prop in Hv; destruct Hv as [Hv ?]);
    repeat match goal with
           | H : (_ >=? _)%Z = true |- _ => apply Z.geb_le in H
           end;
    repeat split; lia.
Qed.

(** A password shorter than [min_digits] is never compliant as
    ALPHANUMERIC. *)
Lemma too_few_digits self password :
  (Z.of_nat (List.length password) < min_digits (policy self))%Z ->
  validate_policy_compliance self password ALPHANUMERIC = false.
Proof.
  intros Hlt.
  destruct (validate_policy_compliance self password ALPHANUMERIC) eqn:Hv;
    [| reflexivity].
  apply validate_true_inv in Hv. destruct Hv as (_ & Hd & _).
  pose proof (count_in_le (digits self) password). lia.
Qed.

Lemma in_bounds_check pol len :
  (min_length pol <= len <= max_length pol)%Z ->
  negb ((min_length pol <=? len)%Z && (len <=? max_length pol)%Z) = false.
Proof.
  intros [H1 H2]. apply Z.leb_le in H1, H2. now rewrite H1, H2.
Qed.

Lemma out_of_bounds_check pol len :
  (len < min_length pol \/ len > max_length pol)%Z ->
  negb ((min_length pol <=? len)%Z && (len <=? max_length pol)%Z) = true.
Proof.
  intros H. apply negb_true_iff, andb_false_iff.
  destruct H; [left; apply Z.leb_gt | right; apply Z.leb_gt]; lia.
Qed.

(** For a character category an in-bounds call is the attempt loop over
    the category's alphabet. *)
Lemma generate_password_characters self len category st :
  category <> PASSPHRASE ->
  (min_length (generator_policy self) <= len
     <= max_length (generator_policy self))%Z ->
  generate_password self len category st =
  attempt_loop self (select_generator st)
    (alphabet (character_lake self) category) len category max_attempts.
Proof.
  intros Hcat Hb. unfold generate_password.
  rewrite (in_bounds_check _ _ Hb).
  destruct category; [reflexivity | reflexivity | contradiction].
Qed.

(** ** Generation for the character categories *)

Lemma generate_password_Return_in_bounds self len category st w s w' :
  generate_password self len category st w = (Return s, w') ->
  (min_length (generator_policy self) <= len
     <= max_length (generator_policy self))%Z.
Proof.
  unfold generate_password.
  destruct (Z.leb_spec (min_length (generator_policy self)) len);
    destruct (Z.leb_spec len (max_length (generator_policy self)));
    cbn; try discriminate.
  lia.
Qed.

Lemma returned_password_spec pol words len category st w s w' :
  category <> PASSPHRASE ->
  generate_password (PasswordGenerator_init pol words) len category st w
    = (Return s, w') ->
  character_postcondition pol len category s.
Proof.
  intros Hcat Hrun.
  pose proof (generate_password_Return_in_bounds _ _ _ _ _ _ _ Hrun) as Hb.
  rewrite generate_password_characters in Hrun by assumption.
  generalize (attempt_loop_spec (PasswordGenerator_init pol words)
                (select_generator st)
                (alphabet (CharacterLake_init pol) category)
                len category max_attempts w).
  cbn [character_lake PasswordGenerator_init] in *.
  rewrite Hrun. cbn [fst snd loop_outcome].
  intros (tried & _ & _ & ((Hlen & Hall) & Hv) & _).
  apply validate_true_inv in Hv. destruct Hv as [_ Hmin].
  split; [rewrite Hlen; lia |]. split; [exact Hall | exact Hmin].
Qed.

(** C1, as amended: for every length within the policy bounds, either
    character category and every strength, a string that
    [generate_password] returns has exactly [max(length, 0)] characters
    (so exactly [length] of them when [length] is not negative), every
    character comes from [get_character_set(category)], and the
    per-class counts meet every minimum of the policy that is compared
    for that category. *)
Theorem generate_password_postcondition
    pol words len category st w s w' :
  category <> PASSPHRASE ->
  (min_length pol <= len <= max_length pol)%Z ->
  generate_password (PasswordGenerator_init pol words) len category st w
    = (Return s, w') ->
  Z.of_nat (List.length s) = Z.max 0 len /\
  (exists characters,
      get_character_set (CharacterLake_init pol) category = Return characters /\
      Forall (fun c => In c characters) s) /\
  meets_minimums (CharacterLake_init pol) s category.
Proof.
  intros Hcat _ Hrun.
  destruct (returned_password_spec _ _ _ _ _ _ _ _ Hcat Hrun)
    as (Hlen & Hall & Hmin).
  split; [exact Hlen |]. split; [| exact Hmin].
  exists (alphabet (CharacterLake_init pol) category).
  split; [now destruct category | exact Hall].
Qed.

Lemma generate_password_postcondition_witness :
  exists s w',
    generate_password (PasswordGenerator_init default_policy sample_words)
      12 COMPLEX STRONG (entropy0 7 3) = (Return s, w') /\
    Z.of_nat (List.length s) = Z.max 0 12 /\
    meets_minimums (CharacterLake_init default_policy) s COMPLEX.
Proof.
  eexists. eexists. split; [vm_compute; reflexivity |].
  match goal with
  | |- Z.of_nat (List.length ?s) = _ /\ _ =>
      destruct (@generate_password_postcondition default_policy sample_words
                  12 COMPLEX STRONG (entropy0 7 3) s
                  (snd (generate_password
                          (PasswordGenerator_init default_policy sample_words)
                          12 COMPLEX STRONG (entropy0 7 3))))
        as (H1 & _ & H3)
  end.
  - discriminate.
  - cbn. lia.
  - vm_compute. reflexivity.
  - split; assumption.
Defined.

(** C1, the claim as stated fails for a negative length: with a policy
    whose lower bound is negative the call returns the empty string,
    which does not have [length] characters. *)
Lemma negative_length_returns_empty_string :
  (min_length lenient_policy <= -1 <= max_length lenient_policy)%Z /\
  exists w',
    generate_password (PasswordGenerator_init lenient_policy sample_words)
      (-1) ALPHANUMERIC BASIC (entropy0 7 3) = (Return [], w') /\
    Z.of_nat (List.length (@nil ascii)) <> (-1)%Z.
Proof.
  split; [cbn; lia |].
  eexists. split; [vm_compute; reflexivity | cbn; lia].
Qed.

(** ** Which exceptions a computation can raise *)

Lemma raises_only_ret {A : Type} P (a : A) : raises_only P (ret a).
Proof. intros w e w' H. discriminate. Qed.

Lemma raises_only_raise {A : Type} (P : Exception -> Prop) e :
  P e -> raises_only P (@raise A e).
Proof. intros HP w e' w' H. inversion H. now subst. Qed.

Lemma raises_only_bind {A B : Type} P (m : M A) (k : A -> M B) :
  raises_only P m -> (forall a, raises_only P (k a)) ->
  raises_only P (bind m k).
Proof.
  intros Hm Hk w e w' H. apply bind_Raise in H.
  destruct H as [H | (a & w1 & _ & H)]; [now apply Hm in H | now apply Hk in H].
Qed.

Lemma raises_only_randbelow P g n : raises_only P (randbelow g (S n)).
Proof. intros w e w' H. discriminate. Qed.

Lemma raises_only_choice {A : Type} (P : Exception -> Prop) g (seq : list A) :
  P empty_sequence_error -> raises_only P (choice g seq).
Proof.
  intros HP w e w' H. apply choice_Raise in H.
  destruct H as (_ & -> & _). exact HP.
Qed.

Lemma raises_only_comprehension {A : Type} P n (m : M A) :
  raises_only P m -> raises_only P (comprehension n m).
Proof.
  intros Hm. induction n as [| n IH]; cbn.
  - apply raises_only_ret.
  - apply raises_only_bind; [exact Hm |]. intros x.
    apply raises_only_bind; [exact IH |]. intros xs. apply raises_only_ret.
Qed.

Lemma raises_only_shuffle_from {A : Type} P i (x : list A) :
  raises_only P (shuffle_from i x).
Proof.
  revert x. induction i as [| i IH]; intros x; cbn [shuffle_from].
  - apply raises_only_ret.
  - apply raises_only_bind; [apply raises_only_randbelow |].
    intros j. apply IH.
Qed.

Lemma raises_only_capitalize_randomly P words :
  raises_only P (capitalize_randomly words).
Proof.
  induction words as [| word rest IH]; cbn [capitalize_randomly].
  - apply raises_only_ret.
  - apply raises_only_bind; [apply raises_only_randbelow |]. intros r.
    apply raises_only_bind; [exact IH |]. intros rest'. apply raises_only_ret.
Qed.

(** A passphrase call raises only for a missing word list or for a
    choice from an emptied digit or special class. *)
Lemma generate_passphrase_raises (P : Exception -> Prop) self word_count st :
  P missing_wordlist_error -> P empty_sequence_error ->
  raises_only P (_generate_passphrase self word_count st).
Proof.
  intros Hw He. unfold _generate_passphrase.
  destruct (wordlist self) as [| word rest].
  - now apply raises_only_raise.
  - apply raises_only_bind.
    + apply raises_only_comprehension. now apply raises_only_choice.
    + intros ws. apply raises_only_bind.
      * destruct st.
        -- apply raises_only_ret.
        -- apply raises_only_bind; [apply raises_only_capitalize_randomly |].
           intros ws'. apply raises_only_bind;
             [now apply raises_only_choice | intros d; apply raises_only_ret].
        -- apply raises_only_bind; [now apply raises_only_choice |]. intros d.
           apply raises_only_bind; [now apply raises_only_choice |]. intros s.
           apply raises_only_shuffle_from.
      * intros ws'. apply raises_only_bind.
        -- destruct st; [apply raises_only_ret | |];
             now apply raises_only_choice.
        -- intros sep. apply raises_only_ret.
Qed.

Lemma attempt_loop_raises (P : Exception -> Prop) self g characters len
    category r :
  P (PolicyViolationError policy_violation_message) ->
  P empty_sequence_error ->
  raises_only P (attempt_loop self g characters len category r).
Proof.
  intros Hp He w e w' H.
  generalize (attempt_loop_spec self g characters len category r w).
  rewrite H. cbn. intros [(-> & _) | (-> & _)]; assumption.
Qed.

(** ** Validation of the length argument *)

(** C2: for every category and strength, a length below [min_length] or
    above [max_length] makes [generate_password] raise
    [InputValidationError] with both tapes untouched, and a length within
    the bounds never ends in [InputValidationError]. *)
Theorem length_validation self len category st w :
  ((len < min_length (generator_policy self) \/
    len > max_length (generator_policy self))%Z ->
   generate_password self len category st w =
   (Raise (InputValidationError
             (input_validation_message (generator_policy self))), w)) /\
  ((min_length (generator_policy self) <= len
      <= max_length (generator_policy self))%Z ->
   forall message,
     fst (generate_password self len category st w)
       <> Raise (InputValidationError message)).
Proof.
  split.
  - intros Hout. unfold generate_password.
    now rewrite (out_of_bounds_check _ _ Hout).
  - intros Hb message Heq.
    assert (Hr : raises_only (fun e => forall m, e <> InputValidationError m)
                   (generate_password self len category st)).
    { unfold generate_password. rewrite (in_bounds_check _ _ Hb).
      destruct category.
      - apply attempt_loop_raises; discriminate.
      - apply attempt_loop_raises; discriminate.
      - apply generate_passphrase_raises; discriminate. }
    destruct (generate_password self len category st w) as [o w'] eqn:Hrun.
    cbn in Heq. subst o. apply Hr in Hrun. now apply (Hrun message).
Qed.

Lemma length_validation_witness :
  generate_password (PasswordGenerator_init default_policy sample_words)
    11 PASSPHRASE PARANOID (entropy0 7 3) =
  (Raise (InputValidationError "Password length must be between 12 and 128"),
   entropy0 7 3) /\
  forall message,
    fst (generate_password (PasswordGenerator_init default_policy sample_words)
           128 COMPLEX BASIC (entropy0 7 3))
      <> Raise (InputValidationError message).
Proof.
  split.
  - apply (proj1 (length_validation
                    (PasswordGenerator_init default_policy sample_words)
                    11 PASSPHRASE PARANOID (entropy0 7 3))).
    left. cbn. lia.
  - apply (proj2 (length_validation
                    (PasswordGenerator_init default_policy sample_words)
                    128 COMPLEX BASIC (entropy0 7 3))).
    cbn. lia.
Defined.

(** ** The character lake keeps its policy *)

Lemma fold_left_policy (step : CharacterLake -> ascii -> CharacterLake)
    (chars : str) (self : CharacterLake) :
  (forall lake c, policy (step lake c) = policy lake) ->
  policy (fold_left step chars self) = policy self.
Proof.
  intros Hstep. revert self.
  induction chars as [| c chars IH]; intros self; cbn; [reflexivity |].
  now rewrite IH, Hstep.
Qed.

Lemma lake_policy pol : policy (CharacterLake_init pol) = pol.
Proof.
  unfold CharacterLake_init, _initialize_character_sets,
    _exclude_specified_chars, _exclude_similar_chars.
  destruct (exclude_similar pol), (truthy (exclude_chars pol));
    repeat (rewrite fold_left_policy by reflexivity); reflexivity.
Qed.

(** ** The attempt ceiling *)

(** C3, as amended: for a character category [generate_password] goes
    through at most 100 candidates; it returns the first compliant one,
    and when all 100 are rejected it raises [PolicyViolationError] with a
    message that names 100.  In particular, with [min_digits = length + 1],
    category ALPHANUMERIC, a length within the bounds that is not
    negative, and an alphabet that is not empty (or length 0), it raises
    that error after exactly 100 candidates, [100 * length] draws, and
    never returns. *)
Theorem attempt_ceiling pol words len category st w :
  category <> PASSPHRASE ->
  (min_length pol <= len <= max_length pol)%Z ->
  let self := PasswordGenerator_init pol words in
  let g := select_generator st in
  let run := generate_password self len category st w in
  policy_violation_message =
    "Could not generate password that meets policy requirements after 100 attempts"%string /\
  loop_outcome self g (alphabet (character_lake self) category) len category
    100 w (fst run) (snd run) /\
  (category = ALPHANUMERIC -> (0 <= len)%Z -> min_digits pol = (len + 1)%Z ->
   len = 0%Z \/ alphabet (character_lake self) ALPHANUMERIC <> [] ->
   fst run = Raise (PolicyViolationError policy_violation_message) /\
   drawn g (snd run) = drawn g w + 100 * Z.to_nat len).
Proof.
  intros Hcat Hb self g run.
  assert (Hout : loop_outcome self g (alphabet (character_lake self) category)
                   len category 100 w (fst run) (snd run)).
  { subst run. rewrite generate_password_characters by assumption.
    apply attempt_loop_spec. }
  split; [reflexivity |]. split; [exact Hout |].
  intros -> Hpos Hdigits Hne.
  assert (Hrej : forall c, candidate (alphabet (character_lake self) ALPHANUMERIC) len c ->
                   validate_policy_compliance (character_lake self) c ALPHANUMERIC = false).
  { intros c [Hlen _]. apply too_few_digits.
    subst self. cbn [character_lake PasswordGenerator_init].
    rewrite lake_policy, Hdigits, Hlen. lia. }
  destruct (fst run) as [s | e]; cbn [loop_outcome] in Hout.
  - destruct Hout as (tried & _ & _ & [Hc Hv] & _).
    rewrite (Hrej s Hc) in Hv. discriminate.
  - destruct Hout as [(-> & tried & _ & _ & Hd) | (_ & Hempty & Hlen & _)].
    + split; [reflexivity | exact Hd].
    + destruct Hne as [-> | Hne]; [lia | contradiction].
Qed.

Lemma attempt_ceiling_witness :
  let run := generate_password
               (PasswordGenerator_init thirteen_digits_policy sample_words)
               12 ALPHANUMERIC BASIC (entropy0 7 3) in
  fst run = Raise (PolicyViolationError policy_violation_message) /\
  drawn random_module (snd run) = 1200.
Proof.
  apply (attempt_ceiling thirteen_digits_policy sample_words 12
           ALPHANUMERIC BASIC (entropy0 7 3)).
  - discriminate.
  - cbn. lia.
  - reflexivity.
  - lia.
  - reflexivity.
  - right. vm_compute. discriminate.
Defined.

(** C3, the claim as stated fails when the exclusions have emptied the
    alphabet: the first draw raises [IndexError], not
    [PolicyViolationError], and no candidate is ever formed. *)
Lemma empty_alphabet_raises_index_error :
  (min_length no_alphanumerics_policy <= 12
     <= max_length no_alphanumerics_policy)%Z /\
  min_digits no_alphanumerics_policy = (12 + 1)%Z /\
  generate_password
    (PasswordGenerator_init no_alphanumerics_policy sample_words)
    12 ALPHANUMERIC BASIC (entropy0 7 3)
  = (Raise (IndexError "Cannot choose from an empty sequence"), entropy0 7 3) /\
  IndexError "Cannot choose from an empty sequence"
    <> PolicyViolationError policy_violation_message.
Proof.
  split; [cbn; lia |]. split; [reflexivity |].
  split; [vm_compute; reflexivity | discriminate].
Qed.

(** ** What the exclusions leave in each class *)

Lemma replace_In old s x : In x (replace old s) <-> In x s /\ x <> old.
Proof.
  unfold replace. rewrite filter_In, negb_true_iff.
  split; intros [H1 H2]; (split; [exact H1 |]).
  - intros ->. now rewrite Ascii.eqb_refl in H2.
  - now apply Ascii.eqb_neq.
Qed.

(** A class that each pass filters by [replace (h char)] keeps exactly
    the members that no pass removed. *)
Lemma fold_left_replace (field : CharacterLake -> str) (h : ascii -> ascii)
    (step : CharacterLake -> ascii -> CharacterLake) :
  (forall lake c, field (step lake c) = replace (h c) (field lake)) ->
  forall (chars : str) (self : CharacterLake) (x : ascii),
    In x (field (fold_left step chars self)) <->
    In x (field self) /\ forall c, In c chars -> x <> h c.
Proof.
  intros Hstep chars. induction chars as [| c chars IH]; intros self x; cbn.
  - split; [intros H; split; [exact H | contradiction] | now intros [H _]].
  - rewrite IH, Hstep, replace_In. split.
    + intros [[Hin Hne] Hrest]. split; [exact Hin |].
      intros c' [<- | Hc']; [exact Hne | now apply Hrest].
    + intros [Hin Hall]. repeat split; auto.
Qed.

Lemma fold_left_untouched (field : CharacterLake -> str)
    (step : CharacterLake -> ascii -> CharacterLake) :
  (forall lake c, field (step lake c) = field lake) ->
  forall (chars : str) (self : CharacterLake),
    field (fold_left step chars self) = field self.
Proof.
  intros Hstep chars. induction chars as [| c chars IH]; intros self; cbn.
  - reflexivity.
  - now rewrite IH, Hstep.
Qed.

Lemma truthy_false_nil (s : str) : truthy s = false -> s = [].
Proof. now destruct s. Qed.

(** The shape shared by the three classes that both passes filter. *)
Lemma lake_class (pol : PasswordPolicy) (field : CharacterLake -> str)
    (h : ascii -> ascii) (initial : str) :
  (forall lake c, field (exclude_similar_step lake c)
                  = replace (h c) (field lake)) ->
  (forall lake c, field (exclude_specified_step lake c)
                  = replace (h c) (field lake)) ->
  field {| policy := pol; lowercase := ascii_lowercase;
           uppercase := ascii_uppercase; digits := string_digits;
           special := punctuation |} = initial ->
  forall x,
    In x (field (CharacterLake_init pol)) <->
    In x initial /\
    (exclude_similar pol = true ->
     forall c, In c similar_chars -> x <> h c) /\
    (forall c, In c (exclude_chars pol) -> x <> h c).
Proof.
  intros Hsim Hspec Hinit x.
  unfold CharacterLake_init, _initialize_character_sets,
    _exclude_specified_chars, _exclude_similar_chars.
  destruct (exclude_similar pol) eqn:Hes;
    destruct (truthy (exclude_chars pol)) eqn:Htr;
    repeat (first [ rewrite (fold_left_replace field h _ Hspec)
                  | rewrite (fold_left_replace field h _ Hsim) ]);
    rewrite ?fold_left_policy by reflexivity; cbn [policy];
    rewrite Hinit;
    try (apply truthy_false_nil in Htr; rewrite Htr);
    intuition (try discriminate; eauto).
Qed.

Lemma lake_lowercase pol x :
  In x (lowercase (CharacterLake_init pol)) <->
  In x ascii_lowercase /\
  (exclude_similar pol = true -> forall c, In c similar_chars -> x <> lower c) /\
  (forall c, In c (exclude_chars pol) -> x <> lower c).
Proof. now apply (lake_class pol lowercase lower). Qed.

Lemma lake_uppercase pol x :
  In x (uppercase (CharacterLake_init pol)) <->
  In x ascii_uppercase /\
  (exclude_similar pol = true -> forall c, In c similar_chars -> x <> upper c) /\
  (forall c, In c (exclude_chars pol) -> x <> upper c).
Proof. now apply (lake_class pol uppercase upper). Qed.

Lemma lake_digits pol x :
  In x (digits (CharacterLake_init pol)) <->
  In x string_digits /\
  (exclude_similar pol = true -> forall c, In c similar_chars -> x <> c) /\
  (forall c, In c (exclude_chars pol) -> x <> c).
Proof. now apply (lake_class pol digits (fun c => c)). Qed.

(** The special class is filtered by the listed characters only. *)
Lemma lake_special pol x :
  In x (special (CharacterLake_init pol)) <->
  In x punctuation /\ forall c, In c (exclude_chars pol) -> x <> c.
Proof.
  unfold CharacterLake_init, _initialize_character_sets,
    _exclude_specified_chars, _exclude_similar_chars.
  destruct (exclude_similar pol) eqn:Hes;
    destruct (truthy (exclude_chars pol)) eqn:Htr;
    rewrite ?(fold_left_replace special (fun c => c) exclude_specified_step)
      by reflexivity;
    rewrite ?(fold_left_untouched special exclude_similar_step) by reflexivity;
    rewrite ?fold_left_policy by reflexivity; cbn [policy special];
    try (apply truthy_false_nil in Htr; rewrite Htr);
    intuition (try discriminate; eauto).
Qed.

(** A character of a letter class is its own image under the case map of
    that class. *)
Lemma lower_of_lowercase c : In c ascii_lowercase -> lower c = c.
Proof.
  intros H. cbn in H.
  repeat (destruct H as [<- | H]; [reflexivity |]). contradiction.
Qed.

Lemma upper_of_uppercase c : In c ascii_uppercase -> upper c = c.
Proof.
  intros H. cbn in H.
  repeat (destruct H as [<- | H]; [reflexivity |]). contradiction.
Qed.

Lemma similar_not_punctuation c : In c similar_chars -> ~ In c punctuation.
Proof.
  intros H. cbn in H.
  repeat (destruct H as [<- | H];
          [intros Hp; cbn in Hp;
           repeat (destruct Hp as [Hp | Hp]; [discriminate Hp |]);
           contradiction |]).
  contradiction.
Qed.

(** An excluded character is in none of the four classes. *)
Lemma excluded_not_in_lake pol c :
  excluded pol c ->
  ~ In c (lowercase (CharacterLake_init pol)) /\
  ~ In c (uppercase (CharacterLake_init pol)) /\
  ~ In c (digits (CharacterLake_init pol)) /\
  ~ In c (special (CharacterLake_init pol)).
Proof.
  intros Hex. repeat split; intros Hin.
  - apply lake_lowercase in Hin. destruct Hin as (Hc & Hsim & Hspec).
    pose proof (lower_of_lowercase _ Hc) as Hl.
    destruct Hex as [Hex | [Hes Hex]].
    + apply (Hspec c Hex). now rewrite Hl.
    + apply (Hsim Hes c Hex). now rewrite Hl.
  - apply lake_uppercase in Hin. destruct Hin as (Hc & Hsim & Hspec).
    pose proof (upper_of_uppercase _ Hc) as Hu.
    destruct Hex as [Hex | [Hes Hex]].
    + apply (Hspec c Hex). now rewrite Hu.
    + apply (Hsim Hes c Hex). now rewrite Hu.
  - apply lake_digits in Hin. destruct Hin as (Hc & Hsim & Hspec).
    destruct Hex as [Hex | [Hes Hex]].
    + now apply (Hspec c Hex).
    + now apply (Hsim Hes c Hex).
  - apply lake_special in Hin. destruct Hin as (Hc & Hspec).
    destruct Hex as [Hex | [Hes Hex]].
    + now apply (Hspec c Hex).
    + now apply (similar_not_punctuation _ Hex).
Qed.

Lemma excluded_not_in_alphabet pol category c :
  excluded pol c ->
  ~ In c (alphabet (CharacterLake_init pol) category).
Proof.
  intros Hex Hin.
  destruct (excluded_not_in_lake _ _ Hex) as (Hl & Hu & Hd & Hs).
  destruct category; cbn in Hin;
    repeat (apply in_app_or in Hin; destruct Hin as [Hin | Hin]);
    contradiction.
Qed.

(** ** Exclusions and the generated strings *)

(** C4, as amended: for every character that is in [exclude_chars] or,
    with [exclude_similar] set, in the similar-character set, no string
    that [generate_password] returns for the categories ALPHANUMERIC and
    COMPLEX, at any strength, contains it. *)
Theorem excluded_characters_absent pol words len category st w s w' c :
  category <> PASSPHRASE ->
  excluded pol c ->
  generate_password (PasswordGenerator_init pol words) len category st w
    = (Return s, w') ->
  ~ In c s.
Proof.
  intros Hcat Hex Hrun Hin.
  pose proof (generate_password_Return_in_bounds _ _ _ _ _ _ _ Hrun) as Hb.
  rewrite generate_password_characters in Hrun by assumption.
  generalize (attempt_loop_spec (PasswordGenerator_init pol words)
                (select_generator st)
                (alphabet (CharacterLake_init pol) category)
                len category max_attempts w).
  cbn [character_lake PasswordGenerator_init] in *.
  rewrite Hrun. cbn [fst snd loop_outcome].
  intros (tried & _ & _ & ((_ & Hall) & _) & _).
  rewrite Forall_forall in Hall.
  exact (excluded_not_in_alphabet _ category _ Hex (Hall c Hin)).
Qed.

Lemma excluded_characters_absent_witness :
  exists s w',
    generate_password (PasswordGenerator_init exclude_a_policy sample_words)
      12 COMPLEX STRONG (entropy0 11 5) = (Return s, w') /\
    ~ In "a"%char s /\ ~ In "l"%char s.
Proof.
  eexists. eexists. split; [vm_compute; reflexivity |].
  split.
  - apply (@excluded_characters_absent exclude_a_policy sample_words 12 COMPLEX
             STRONG (entropy0 11 5) _
             (snd (generate_password
                     (PasswordGenerator_init exclude_a_policy sample_words)
                     12 COMPLEX STRONG (entropy0 11 5)))).
    + discriminate.
    + left. cbn. now left.
    + vm_compute. reflexivity.
  - apply (@excluded_characters_absent exclude_a_policy sample_words 12 COMPLEX
             STRONG (entropy0 11 5) _
             (snd (generate_password
                     (PasswordGenerator_init exclude_a_policy sample_words)
                     12 COMPLEX STRONG (entropy0 11 5)))).
    + discriminate.
    + right. split; [reflexivity | cbn; now left].
    + vm_compute. reflexivity.
Defined.

(** C4, the claim as stated fails for PASSPHRASE: the words of the
    corpus are joined as they are, so under the default policy, which
    excludes the similar characters, a returned passphrase contains the
    letter [l]. *)
Lemma passphrase_contains_excluded_character :
  excluded default_policy "l"%char /\
  exists s w',
    generate_password (PasswordGenerator_init default_policy sample_words)
      12 PASSPHRASE BASIC (entropy0 7 3) = (Return s, w') /\
    In "l"%char s.
Proof.
  split.
  - right. split; [reflexivity | cbn; now left].
  - eexists. eexists. split; [vm_compute; reflexivity |].
    cbn. tauto.
Qed.

(** ** Case-insensitive exclusion *)

Lemma special_after_specified chars self :
  special (fold_left exclude_specified_step chars self) =
  fold_left (fun s ch => replace ch s) chars (special self).
Proof.
  revert self. induction chars as [| ch chars IH]; intros self; cbn.
  - reflexivity.
  - now rewrite IH.
Qed.

(** C10: every character of [exclude_chars] has its lower-case form
    removed from the lowercase class and its upper-case form removed from
    the uppercase class, whatever its own case; the similar-character
    pass leaves the special class as it was, so the special class is
    [string.punctuation] filtered by [exclude_chars] alone. *)
Theorem exclusion_ignores_case pol c :
  In c (exclude_chars pol) ->
  (~ In (lower c) (lowercase (CharacterLake_init pol)) /\
   ~ In (upper c) (uppercase (CharacterLake_init pol))) /\
  (forall self, special (_exclude_similar_chars self) = special self) /\
  special (CharacterLake_init pol) =
    fold_left (fun s ch => replace ch s) (exclude_chars pol) punctuation.
Proof.
  intros Hc. split; [split |split].
  - intros Hin. apply lake_lowercase in Hin.
    destruct Hin as (_ & _ & Hspec). now apply (Hspec c Hc).
  - intros Hin. apply lake_uppercase in Hin.
    destruct Hin as (_ & _ & Hspec). now apply (Hspec c Hc).
  - intros self. unfold _exclude_similar_chars.
    now apply (fold_left_untouched special exclude_similar_step).
  - unfold CharacterLake_init, _initialize_character_sets,
      _exclude_specified_chars, _exclude_similar_chars.
    destruct (exclude_similar pol);
      destruct (truthy (exclude_chars pol)) eqn:Htr;
      rewrite ?special_after_specified;
      rewrite ?(fold_left_untouched special exclude_similar_step) by reflexivity;
      rewrite ?fold_left_policy by reflexivity; cbn [policy special];
      try (apply truthy_false_nil in Htr; rewrite Htr); reflexivity.
Qed.

Lemma exclusion_ignores_case_witness :
  In "a"%char (exclude_chars exclude_a_policy) /\
  ~ In "a"%char (lowercase (CharacterLake_init exclude_a_policy)) /\
  ~ In "A"%char (uppercase (CharacterLake_init exclude_a_policy)) /\
  special (CharacterLake_init exclude_a_policy) = punctuation.
Proof.
  assert (Ha : In "a"%char (exclude_chars exclude_a_policy)) by (cbn; now left).
  destruct (exclusion_ignores_case exclude_a_policy _ Ha)
    as ((Hl & Hu) & _ & Hs).
  repeat split; try assumption.
Defined.

(** ** The compliance predicate on passphrases *)

Lemma validate_true_intro self password category :
  (min_length (policy self) <= Z.of_nat (List.length password)
     <= max_length (policy self))%Z ->
  meets_minimums self password category ->
  validate_policy_compliance self password category = true.
Proof.
  intros [Hlo Hhi] Hmin. unfold validate_policy_compliance.
  destruct (Z.ltb_spec (Z.of_nat (List.length password)) (min_length (policy self)));
    [lia |].
  destruct (Z.gtb_spec (Z.of_nat (List.length password)) (max_length (policy self)));
    [lia |].
  unfold meets_minimums in Hmin.
  destruct category; cbn zeta in Hmin;
    repeat match goal with
           | H : _ /\ _ |- _ => destruct H
           end;
    repeat (apply andb_true_intro; split); apply Z.geb_le; assumption.
Qed.

(** C6, as amended: for every candidate string, the compliance predicate
    with category PASSPHRASE checks the [min_length] / [max_length]
    bounds and, of the minimums, only [min_upper] and [min_lower]: the
    candidate is judged compliant exactly when its length is within the
    bounds and its upper and lower counts meet the minimums. *)
Theorem passphrase_compliance self s :
  validate_policy_compliance self s PASSPHRASE = true <->
  (min_length (policy self) <= Z.of_nat (List.length s)
     <= max_length (policy self))%Z /\
  (min_upper (policy self) <= Z.of_nat (count_in (uppercase self) s))%Z /\
  (min_lower (policy self) <= Z.of_nat (count_in (lowercase self) s))%Z.
Proof.
  split.
  - intros Hv. apply validate_true_inv in Hv. exact Hv.
  - intros [Hb Hmin]. apply validate_true_intro; assumption.
Qed.

Lemma passphrase_compliance_witness :
  validate_policy_compliance (CharacterLake_init default_policy)
    (lit "Abcdefghjkmn") PASSPHRASE = true.
Proof.
  apply (proj2 (passphrase_compliance (CharacterLake_init default_policy)
                  (lit "Abcdefghjkmn"))).
  split; [split; apply Z.leb_le; vm_compute; reflexivity |].
  split; apply Z.leb_le; vm_compute; reflexivity.
Defined.

(** C6, the claim as stated fails: a two-letter candidate with one
    upper-case and one lower-case letter meets both minimums of the
    default policy and is judged non-compliant, because its length is
    below [min_length]. *)
Lemma short_candidate_is_rejected :
  (Z.of_nat (List.length (lit "Ab")) < min_length default_policy)%Z /\
  meets_minimums (CharacterLake_init default_policy) (lit "Ab") PASSPHRASE /\
  validate_policy_compliance (CharacterLake_init default_policy)
    (lit "Ab") PASSPHRASE = false.
Proof.
  split; [cbn; lia |]. split; [| vm_compute; reflexivity].
  split; apply Z.leb_le; vm_compute; reflexivity.
Qed.

(** ** The alphabet lookup *)

(** C7, as amended: for every policy and every category
    [get_character_set] never fails; it returns the concatenation of the
    filtered classes of the category, which is empty exactly when every
    one of those classes is empty, and an emptied class is not
    detected. *)
Theorem get_character_set_total pol category :
  let self := CharacterLake_init pol in
  get_character_set self category = Return (List.concat (classes_of self category)) /\
  (List.concat (classes_of self category) = [] <->
   Forall (fun class => class = []) (classes_of self category)).
Proof.
  intros self. split.
  - destruct category; cbn; now rewrite ?app_nil_r.
  - generalize (classes_of self category). intros classes.
    induction classes as [| class classes IH]; cbn.
    + split; auto.
    + split.
      * intros H. apply app_eq_nil in H. destruct H as [H1 H2].
        constructor; [exact H1 | now apply IH].
      * intros H. inversion H; subst. cbn. now apply IH.
Qed.

Lemma get_character_set_total_witness :
  get_character_set (CharacterLake_init no_alphanumerics_policy) ALPHANUMERIC
    = Return [] /\
  List.concat (classes_of (CharacterLake_init no_alphanumerics_policy)
                 ALPHANUMERIC) = [].
Proof.
  destruct (get_character_set_total no_alphanumerics_policy ALPHANUMERIC)
    as [Hget Hiff].
  assert (Hall : Forall (fun class => class = [])
                   (classes_of (CharacterLake_init no_alphanumerics_policy)
                      ALPHANUMERIC))
    by (repeat constructor).
  split.
  - rewrite Hget, (proj2 Hiff Hall). reflexivity.
  - exact (proj2 Hiff Hall).
Defined.

(** C7, the claim as stated fails: with every special character excluded
    the COMPLEX lookup returns the letters and digits and reports
    nothing, and with every letter and digit excluded the ALPHANUMERIC
    lookup returns the empty string. *)
Lemma emptied_class_goes_unreported :
  special (CharacterLake_init no_special_policy) = [] /\
  get_character_set (CharacterLake_init no_special_policy) COMPLEX =
    Return (lit "abcdefghjkmnpqrstuvwxyzABCDEFGHJKMNPQRSTUVWXYZ23456789") /\
  get_character_set (CharacterLake_init no_alphanumerics_policy) ALPHANUMERIC =
    Return [].
Proof. repeat split. Qed.

(** ** Passphrases are returned unchecked *)

Lemma fold_left_same_classes (step : CharacterLake -> ascii -> CharacterLake)
    (chars : str) :
  (forall a b c, same_classes a b -> same_classes (step a c) (step b c)) ->
  forall a b, same_classes a b ->
    same_classes (fold_left step chars a) (fold_left step chars b).
Proof.
  intros Hstep. induction chars as [| c chars IH]; intros a b Hab; cbn.
  - exact Hab.
  - apply IH. now apply Hstep.
Qed.

Lemma similar_step_same_classes a b c :
  same_classes a b ->
  same_classes (exclude_similar_step a c) (exclude_similar_step b c).
Proof.
  intros (Hl & Hu & Hd & Hs). unfold same_classes, exclude_similar_step; cbn.
  now rewrite Hl, Hu, Hd, Hs.
Qed.

Lemma specified_step_same_classes a b c :
  same_classes a b ->
  same_classes (exclude_specified_step a c) (exclude_specified_step b c).
Proof.
  intros (Hl & Hu & Hd & Hs). unfold same_classes, exclude_specified_step; cbn.
  now rewrite Hl, Hu, Hd, Hs.
Qed.

(** The classes of a lake depend on the exclusions of the policy only. *)
Lemma lake_classes_by_exclusions pol pol' :
  exclude_chars pol = exclude_chars pol' ->
  exclude_similar pol = exclude_similar pol' ->
  same_classes (CharacterLake_init pol) (CharacterLake_init pol').
Proof.
  intros Hchars Hsim.
  unfold CharacterLake_init, _initialize_character_sets,
    _exclude_specified_chars, _exclude_similar_chars.
  rewrite <- Hsim, <- Hchars.
  destruct (exclude_similar pol), (truthy (exclude_chars pol));
    rewrite ?fold_left_policy by reflexivity; cbn [policy];
    rewrite <- ?Hchars;
    repeat (apply fold_left_same_classes;
            [first [exact specified_step_same_classes
                   | exact similar_step_same_classes] |]);
    repeat split.
Qed.

(** A passphrase call reads the word list and the digit and special
    classes of its generator, nothing else. *)
Lemma generate_passphrase_reads self self' word_count st w :
  wordlist self = wordlist self' ->
  digits (character_lake self) = digits (character_lake self') ->
  special (character_lake self) = special (character_lake self') ->
  _generate_passphrase self word_count st w =
  _generate_passphrase self' word_count st w.
Proof.
  intros Hw Hd Hs. unfold _generate_passphrase.
  now rewrite Hw, Hd, Hs.
Qed.

(** C9: for category PASSPHRASE an in-bounds [generate_password] is
    [_generate_passphrase] and nothing more; the string it returns does
    not depend on any of the four minimums of the policy, for any
    strength, so [min_upper] and [min_lower] are not enforced, and a
    passphrase that the compliance predicate rejects is returned. *)
Theorem passphrase_is_not_validated pol words len st w :
  ((min_length pol <= len <= max_length pol)%Z ->
   generate_password (PasswordGenerator_init pol words) len PASSPHRASE st w =
   _generate_passphrase (PasswordGenerator_init pol words) len st w) /\
  (forall d sp u l,
     generate_password
       (PasswordGenerator_init (set_minimums d sp u l pol) words)
       len PASSPHRASE st w =
     generate_password (PasswordGenerator_init pol words) len PASSPHRASE st w) /\
  (exists s w0 w',
     generate_password (PasswordGenerator_init default_policy sample_words)
       12 PASSPHRASE BASIC w0 = (Return s, w') /\
     validate_policy_compliance (CharacterLake_init default_policy)
       s PASSPHRASE = false /\
     (Z.of_nat (count_in (uppercase (CharacterLake_init default_policy)) s)
        < min_upper default_policy)%Z).
Proof.
  split; [| split].
  - intros Hb. unfold generate_password.
    cbn [generator_policy PasswordGenerator_init].
    now rewrite (in_bounds_check _ _ Hb).
  - intros d sp u l. unfold generate_password.
    cbn [generator_policy PasswordGenerator_init set_minimums min_length max_length].
    destruct (negb ((min_length pol <=? len)%Z && (len <=? max_length pol)%Z));
      [reflexivity |].
    destruct (lake_classes_by_exclusions (set_minimums d sp u l pol) pol
                eq_refl eq_refl) as (_ & _ & Hd & Hs).
    now apply generate_passphrase_reads.
  - eexists. exists (entropy0 7 3). eexists.
    split; [vm_compute; reflexivity |].
    split; [vm_compute; reflexivity |].
    apply Z.ltb_lt. vm_compute. reflexivity.
Qed.

Lemma passphrase_is_not_validated_witness :
  generate_password (PasswordGenerator_init default_policy sample_words)
    12 PASSPHRASE STRONG (entropy0 7 3) =
  _generate_passphrase (PasswordGenerator_init default_policy sample_words)
    12 STRONG (entropy0 7 3).
Proof.
  apply (proj1 (passphrase_is_not_validated default_policy sample_words
                  12 STRONG (entropy0 7 3))).
  cbn. lia.
Defined.

(** ** Several passwords *)

(** A comprehension is a run of calls in order: it returns all their
    results, or stops at the first call that raises. *)
Lemma comprehension_calls {A : Type} (m : M A) n w :
  match comprehension n m w with
  | (Return xs, w') => List.length xs = n /\ calls m w xs w'
  | (Raise e, w') =>
      exists done w1,
        List.length done < n /\ calls m w done w1 /\ m w1 = (Raise e, w')
  end.
Proof.
  revert w. induction n as [| n IH]; intros w; cbn [comprehension].
  - cbn. auto.
  - unfold bind at 1. destruct (m w) as [[x | e] w1] eqn:Hm.
    + unfold bind. specialize (IH w1).
      destruct (comprehension n m w1) as [[xs | e] w2].
      * destruct IH as [Hlen Hcalls]. cbn. split; [now rewrite Hlen |].
        exists w1. now split.
      * destruct IH as (done & w3 & Hlen & Hcalls & Hraise).
        exists (x :: done), w3. cbn. repeat split; [lia | | exact Hraise].
        exists w1. now split.
    + exists [], w. cbn. repeat split; [lia | exact Hm].
Qed.

Lemma calls_Forall {A : Type} (m : M A) (P : A -> Prop) :
  (forall w x w', m w = (Return x, w') -> P x) ->
  forall xs w w', calls m w xs w' -> Forall P xs.
Proof.
  intros Hm xs. induction xs as [| x xs IH]; intros w w' Hc; cbn in Hc.
  - constructor.
  - destruct Hc as (w1 & Hx & Hrest).
    constructor; [now apply (Hm w x w1) | now apply (IH w1 w')].
Qed.

(** C8, as amended: [generate_multiple(count, length, category, strength)]
    is [max(count, 0)] calls of [generate_password] with the same
    arguments, each starting where the one before it stopped.  When all
    of them return, the result is their [max(count, 0)] strings in call
    order, and for a character category each one satisfies the
    postcondition of a single call; when one raises, that exception is
    the result, nothing is drawn after it, and no list is returned. *)
Theorem generate_multiple_calls pol words count len category st w :
  let self := PasswordGenerator_init pol words in
  let call := generate_password self len category st in
  match generate_multiple self count len category st w with
  | (Return passwords, w') =>
      Z.of_nat (List.length passwords) = Z.max 0 count /\
      calls call w passwords w' /\
      (category <> PASSPHRASE ->
       Forall (character_postcondition pol len category) passwords)
  | (Raise e, w') =>
      exists done w1,
        (Z.of_nat (List.length done) < count)%Z /\
        calls call w done w1 /\ call w1 = (Raise e, w')
  end.
Proof.
  intros self call. unfold generate_multiple. fold call.
  generalize (comprehension_calls call (Z.to_nat count) w).
  destruct (comprehension (Z.to_nat count) call w) as [[passwords | e] w'].
  - intros [Hlen Hcalls]. split; [lia |]. split; [exact Hcalls |].
    intros Hcat. apply (calls_Forall call) with (w := w) (w' := w');
      [| exact Hcalls].
    intros w0 s w1 Hrun.
    now apply (returned_password_spec pol words len category st w0 s w1).
  - intros (done & w1 & Hlen & Hcalls & Hraise).
    exists done, w1. repeat split; [lia | exact Hcalls | exact Hraise].
Qed.

(** C8, the claim as stated fails for a negative count: the call makes
    no call at all and returns the empty list, which does not have
    [count] members. *)
Lemma negative_count_returns_empty_list :
  generate_multiple (PasswordGenerator_init default_policy sample_words)
    (-1) 12 COMPLEX STRONG (entropy0 7 3) = (Return [], entropy0 7 3) /\
  Z.of_nat (List.length (@nil str)) <> (-1)%Z.
Proof. split; [reflexivity | cbn; lia]. Qed.

Lemma generate_multiple_calls_witness :
  exists passwords w',
    generate_multiple (PasswordGenerator_init default_policy sample_words)
      5 12 COMPLEX STRONG (entropy0 11 5) = (Return passwords, w') /\
    Z.of_nat (List.length passwords) = 5%Z /\
    Forall (character_postcondition default_policy 12 COMPLEX) passwords.
Proof.
  generalize (generate_multiple_calls default_policy sample_words
                5 12 COMPLEX STRONG (entropy0 11 5)).
  cbv zeta.
  destruct (generate_multiple
              (PasswordGenerator_init default_policy sample_words)
              5 12 COMPLEX STRONG (entropy0 11 5))
    as [[passwords | e] w'] eqn:Hrun.
  - intros (Hlen & _ & Hpost). exists passwords, w'.
    split; [reflexivity |]. split; [exact Hlen |].
    apply Hpost. discriminate.
  - exfalso. vm_compute in Hrun. discriminate.
Defined.

(** ** The shuffle *)

Lemma setitem_length {A : Type} (x : list A) i v :
  List.length (setitem x i v) = List.length x.
Proof.
  revert i. induction x as [| h t IH]; intros [| i]; cbn; auto.
Qed.

Lemma nth_error_setitem {A : Type} (x : list A) i v p :
  i < List.length x ->
  nth_error (setitem x i v) p = if p =? i then Some v else nth_error x p.
Proof.
  revert i p. induction x as [| h t IH]; intros i p Hi; cbn in Hi; [lia |].
  destruct i as [| i], p as [| p]; cbn; try reflexivity.
  apply IH. lia.
Qed.

Lemma swap_items_length {A : Type} (x : list A) i j :
  List.length (swap_items x i j) = List.length x.
Proof.
  unfold swap_items.
  destruct (nth_error x i), (nth_error x j); try reflexivity.
  now rewrite !setitem_length.
Qed.

Lemma nth_error_swap_items {A : Type} (x : list A) i j p :
  i < List.length x -> j < List.length x ->
  nth_error (swap_items x i j) p = nth_error x (transpose i j p).
Proof.
  intros Hi Hj. unfold swap_items, transpose.
  destruct (nth_error x i) as [xi |] eqn:Ei;
    [| apply nth_error_None in Ei; lia].
  destruct (nth_error x j) as [xj |] eqn:Ej;
    [| apply nth_error_None in Ej; lia].
  rewrite nth_error_setitem by (rewrite setitem_length; exact Hj).
  destruct (Nat.eqb_spec p j) as [-> | Hpj]; [now rewrite Ei |].
  rewrite nth_error_setitem by exact Hi.
  destruct (Nat.eqb_spec p i) as [-> | Hpi]; [now rewrite Ej | reflexivity].
Qed.

Lemma transpose_injective i j : Finite.Injective (transpose i j).
Proof.
  intros p q. unfold transpose.
  destruct (Nat.eqb_spec p j), (Nat.eqb_spec q j),
    (Nat.eqb_spec p i), (Nat.eqb_spec q i); lia.
Qed.

Lemma swap_items_Permutation {A : Type} (x : list A) i j :
  Permutation x (swap_items x i j).
Proof.
  destruct (Nat.lt_ge_cases i (List.length x)) as [Hi | Hi];
    [destruct (Nat.lt_ge_cases j (List.length x)) as [Hj | Hj] |].
  - apply Permutation_nth_error. split; [now rewrite swap_items_length |].
    exists (transpose i j). split; [apply transpose_injective |].
    intros p. now apply nth_error_swap_items.
  - unfold swap_items. apply nth_error_None in Hj. rewrite Hj.
    now destruct (nth_error x i).
  - unfold swap_items. apply nth_error_None in Hi. now rewrite Hi.
Qed.

Lemma fisher_yates_Permutation {A : Type} i js (x : list A) :
  Permutation x (fisher_yates i js x).
Proof.
  revert x. induction i as [| i IH]; intros x; cbn.
  - reflexivity.
  - etransitivity; [apply swap_items_Permutation | apply IH].
Qed.

Lemma fisher_yates_length {A : Type} i js (x : list A) :
  List.length (fisher_yates i js x) = List.length x.
Proof.
  symmetry. apply Permutation_length, fisher_yates_Permutation.
Qed.

(** The loop reads [js] at the positions [1..i] only. *)
Lemma fisher_yates_ext {A : Type} i js js' (x : list A) :
  (forall k, 1 <= k <= i -> js k = js' k) ->
  fisher_yates i js x = fisher_yates i js' x.
Proof.
  revert x. induction i as [| i IH]; intros x Hjs; cbn.
  - reflexivity.
  - rewrite (Hjs (S i)) by lia. apply IH. intros k Hk. apply Hjs. lia.
Qed.



(** The monadic loop is [fisher_yates] on the draws it reads; it never
    raises and spends one draw per position. *)
Lemma shuffle_from_spec {A : Type} i (x : list A) w :
  exists js w',
    (forall k, js k <= k) /\
    shuffle_from i x w = (Return (fisher_yates i js x), w') /\
    drawn secrets_module w' = drawn secrets_module w + i.
Proof.
  revert x w. induction i as [| i IH]; intros x w.
  - exists (fun _ => 0), w. cbn. repeat split; auto. intros k. lia.
  - cbn [shuffle_from]. unfold bind, randbelow.
    set (j := raw secrets_module w mod S (S i)).
    assert (Hj : j < S (S i)) by (apply Nat.mod_upper_bound; discriminate).
    destruct (IH (swap_items x (S i) j) (advance secrets_module w))
      as (js & w' & Hjs & Hrun & Hd).
    exists (fun k => if k =? S i then j else js k), w'.
    split; [| split].
    + intros k. destruct (Nat.eqb_spec k (S i)); [lia | apply Hjs].
    + rewrite Hrun. cbn [fisher_yates]. rewrite Nat.eqb_refl.
      do 2 f_equal. apply fisher_yates_ext.
      intros k Hk. destruct (Nat.eqb_spec k (S i)); [lia | reflexivity].
    + rewrite Hd, drawn_advance. lia.
Qed.

(** ** Passphrases *)

Lemma raises_only_choice_nonempty {A : Type} (P : Exception -> Prop) g
    (seq : list A) :
  seq <> [] -> raises_only P (choice g seq).
Proof.
  intros Hne w e w' H. apply choice_Raise in H. destruct H as (-> & _).
  contradiction.
Qed.


(** * Further properties of the character lake *)

Lemma contains_In s c : contains s c = true <-> In c s.
Proof.
  unfold contains. rewrite existsb_exists. split.
  - intros (x & Hx & Heq). apply Ascii.eqb_eq in Heq. now subst.
  - intros H. exists c. split; [exact H | apply Ascii.eqb_refl].
Qed.

Lemma disjoint_by_computation (a b : str) :
  forallb (fun x => negb (contains b x)) a = true ->
  forall x, In x a -> ~ In x b.
Proof.
  intros H x Ha Hb. rewrite forallb_forall in H.
  specialize (H x Ha). apply contains_In in Hb. now rewrite Hb in H.
Qed.

Lemma classes_do_not_overlap pol x :
  let self := CharacterLake_init pol in
  ~ (In x (lowercase self) /\ In x (uppercase self)) /\
  ~ (In x (lowercase self) /\ In x (digits self)) /\
  ~ (In x (lowercase self) /\ In x (special self)) /\
  ~ (In x (uppercase self) /\ In x (digits self)) /\
  ~ (In x (uppercase self) /\ In x (special self)) /\
  ~ (In x (digits self) /\ In x (special self)).
Proof.
  cbv zeta.
  repeat split; intros [H1 H2];
    repeat match goal with
           | H : In _ (lowercase _) |- _ => apply lake_lowercase in H; destruct H as [H _]
           | H : In _ (uppercase _) |- _ => apply lake_uppercase in H; destruct H as [H _]
           | H : In _ (digits _) |- _ => apply lake_digits in H; destruct H as [H _]
           | H : In _ (special _) |- _ => apply lake_special in H; destruct H as [H _]
           end;
    revert H2;
    match goal with
    | Ha : In x ?a |- In x ?b -> False =>
        apply (disjoint_by_computation a b); [vm_compute; reflexivity | exact Ha]
    end.
Qed.

(** X1: whatever the policy excludes, no character belongs to two of the
    four classes of the lake. *)
Theorem lake_classes_disjoint pol x :
  let self := CharacterLake_init pol in
  ~ (In x (lowercase self) /\ In x (uppercase self)) /\
  ~ (In x (lowercase self) /\ In x (digits self)) /\
  ~ (In x (lowercase self) /\ In x (special self)) /\
  ~ (In x (uppercase self) /\ In x (digits self)) /\
  ~ (In x (uppercase self) /\ In x (special self)) /\
  ~ (In x (digits self) /\ In x (special self)).
Proof. exact (classes_do_not_overlap pol x). Qed.

Lemma distinct_NoDup s : distinct s = true -> NoDup s.
Proof.
  induction s as [| c rest IH]; cbn; intros H; constructor;
    apply andb_prop in H; destruct H as [Hc Hrest].
  - intros Hin. apply contains_In in Hin. now rewrite Hin in Hc.
  - now apply IH.
Qed.

(** A property of strings that [replace] keeps holds of a class after
    any number of exclusion passes. *)
Lemma fold_left_field_invariant (P : str -> Prop)
    (field : CharacterLake -> str)
    (step : CharacterLake -> ascii -> CharacterLake) :
  (forall lake c, P (field lake) -> P (field (step lake c))) ->
  forall (chars : str) (self : CharacterLake),
    P (field self) -> P (field (fold_left step chars self)).
Proof.
  intros Hstep chars. induction chars as [| c chars IH]; intros self H; cbn.
  - exact H.
  - apply IH. now apply Hstep.
Qed.

Lemma lake_field_invariant (P : str -> Prop) pol :
  (forall c s, P s -> P (replace c s)) ->
  P ascii_lowercase -> P ascii_uppercase -> P string_digits -> P punctuation ->
  P (lowercase (CharacterLake_init pol)) /\
  P (uppercase (CharacterLake_init pol)) /\
  P (digits (CharacterLake_init pol)) /\
  P (special (CharacterLake_init pol)).
Proof.
  intros Hrep Hl Hu Hd Hs.
  unfold CharacterLake_init, _initialize_character_sets,
    _exclude_specified_chars, _exclude_similar_chars.
  destruct (exclude_similar pol), (truthy (exclude_chars pol));
    repeat split;
    repeat (apply fold_left_field_invariant;
            [intros lake c H; cbn; first [now apply Hrep | exact H] |]);
    assumption.
Qed.

(** X2: the alphabet that [get_character_set] returns never holds a
    character twice, for any policy and category. *)
Theorem alphabet_has_no_duplicates pol category :
  exists characters,
    get_character_set (CharacterLake_init pol) category = Return characters /\
    NoDup characters.
Proof.
  destruct (lake_field_invariant (@NoDup ascii) pol)
    as (Hl & Hu & Hd & Hs).
  { intros c s H. now apply NoDup_filter. }
  1-4: apply distinct_NoDup; vm_compute; reflexivity.
  assert (Hdisj := classes_do_not_overlap pol). cbv zeta in Hdisj.
  destruct category; eexists; (split; [reflexivity |]);
    repeat (apply NoDup_app; [assumption | |
            intros a Ha Hb;
            repeat (apply in_app_or in Hb; destruct Hb as [Hb | Hb]);
            destruct (Hdisj a) as (D1 & D2 & D3 & D4 & D5 & D6); tauto]);
    assumption.
Qed.

Lemma excluded_forms pol (P : ascii -> Prop) :
  ((exclude_similar pol = true -> forall c, In c similar_chars -> P c) /\
   (forall c, In c (exclude_chars pol) -> P c)) <->
  (forall c,
     In c ((if exclude_similar pol then similar_chars else [])
           ++ exclude_chars pol) -> P c).
Proof.
  split.
  - intros [Hsim Hspec] c Hc. apply in_app_or in Hc.
    destruct Hc as [Hc | Hc]; [| now apply Hspec].
    destruct (exclude_similar pol); [now apply Hsim | contradiction].
  - intros H. split.
    + intros Hes c Hc. apply H, in_or_app. left. now rewrite Hes.
    + intros c Hc. apply H, in_or_app. now right.
Qed.

(** X3: the exact contents of the lake, for a policy whose excluded
    characters are code points below 256.  A character is in a letter
    class when it is a letter of that case and no excluded character has
    it as its form of that case; a digit or special character is in its
    class when it is not excluded itself; and the similar characters
    count as excluded when [exclude_similar] is set, except that they
    never touch the special class.  An excluded character from 256 on
    can have a case form that is an ASCII letter or a run of two of
    them; such characters are not characters of [str] and the statement
    does not speak of them. *)
Theorem lake_contents pol x :
  let self := CharacterLake_init pol in
  let similar := if exclude_similar pol then similar_chars else [] in
  (In x (lowercase self) <->
   In x ascii_lowercase /\
   forall c, In c (similar ++ exclude_chars pol) -> x <> lower c) /\
  (In x (uppercase self) <->
   In x ascii_uppercase /\
   forall c, In c (similar ++ exclude_chars pol) -> x <> upper c) /\
  (In x (digits self) <->
   In x string_digits /\ ~ In x (similar ++ exclude_chars pol)) /\
  (In x (special self) <->
   In x punctuation /\ ~ In x (exclude_chars pol)).
Proof.
  cbv zeta.
  rewrite lake_lowercase, lake_uppercase, lake_digits, lake_special.
  rewrite <- (excluded_forms pol (fun c => x <> lower c)).
  rewrite <- (excluded_forms pol (fun c => x <> upper c)).
  assert (Hnot : forall l : str, ~ In x l <-> forall c, In c l -> x <> c).
  { intros l. split.
    - intros Hn c Hc ->. contradiction.
    - intros H Hin. now apply (H x Hin). }
  rewrite !Hnot.
  rewrite <- (excluded_forms pol (fun c => x <> c)).
  tauto.
Qed.

(** * Further properties of the compliance predicate *)

Lemma count_in_cons cls x s :
  count_in cls (x :: s) = (if contains cls x then 1 else 0) + count_in cls s.
Proof. unfold count_in. cbn. now destruct (contains cls x). Qed.

Lemma count_in_Permutation cls s s' :
  Permutation s s' -> count_in cls s = count_in cls s'.
Proof.
  intros H. induction H as [| x s s' _ IH | x y s | s s' s'' _ IH1 _ IH2].
  - reflexivity.
  - now rewrite !count_in_cons, IH.
  - rewrite !count_in_cons. lia.
  - now rewrite IH1.
Qed.

(** X4: compliance looks at the length and the class counts only, so it
    gives the same verdict on every reordering of a password. *)
Theorem compliance_ignores_order self s s' category :
  Permutation s s' ->
  validate_policy_compliance self s category =
  validate_policy_compliance self s' category.
Proof.
  intros H. unfold validate_policy_compliance.
  rewrite (Permutation_length H).
  now rewrite !(count_in_Permutation _ _ _ H).
Qed.

Lemma compliance_ignores_order_witness :
  validate_policy_compliance (CharacterLake_init default_policy)
    (lit "ab34CD#$efgh") COMPLEX =
  validate_policy_compliance (CharacterLake_init default_policy)
    (lit "ba34CD#$efgh") COMPLEX.
Proof.
  apply compliance_ignores_order. apply perm_swap.
Defined.

(** X5: a password that is compliant as COMPLEX is compliant as
    ALPHANUMERIC, and one that is compliant as ALPHANUMERIC is compliant
    as PASSPHRASE: each category checks a subset of the minimums of the
    one before, under the same length bounds. *)
Theorem compliance_weakens self s :
  (validate_policy_compliance self s COMPLEX = true ->
   validate_policy_compliance self s ALPHANUMERIC = true) /\
  (validate_policy_compliance self s ALPHANUMERIC = true ->
   validate_policy_compliance self s PASSPHRASE = true).
Proof.
  split; intros H; apply validate_true_inv in H; destruct H as [Hb Hmin];
    apply validate_true_intro; try exact Hb; cbn in *; tauto.
Qed.

Lemma compliance_weakens_witness :
  validate_policy_compliance (CharacterLake_init default_policy)
    (lit "ab34CD#$efgh") ALPHANUMERIC = true /\
  validate_policy_compliance (CharacterLake_init default_policy)
    (lit "ab34CDxyefgh") PASSPHRASE = true.
Proof.
  split.
  - apply (proj1 (compliance_weakens (CharacterLake_init default_policy)
                    (lit "ab34CD#$efgh"))).
    vm_compute. reflexivity.
  - apply (proj2 (compliance_weakens (CharacterLake_init default_policy)
                    (lit "ab34CDxyefgh"))).
    vm_compute. reflexivity.
Defined.

(** Each character of a password is counted for one class at most. *)
Lemma counts_within_length pol s :
  let self := CharacterLake_init pol in
  count_in (digits self) s + count_in (special self) s +
  count_in (uppercase self) s + count_in (lowercase self) s
    <= List.length s.
Proof.
  cbv zeta. induction s as [| x s IH]; [cbn; lia |].
  rewrite !count_in_cons. cbn [List.length].
  pose proof (classes_do_not_overlap pol x) as Hd. cbv zeta in Hd.
  destruct Hd as (D1 & D2 & D3 & D4 & D5 & D6).
  destruct (contains (digits (CharacterLake_init pol)) x) eqn:Ed;
    destruct (contains (special (CharacterLake_init pol)) x) eqn:Es;
    destruct (contains (uppercase (CharacterLake_init pol)) x) eqn:Eu;
    destruct (contains (lowercase (CharacterLake_init pol)) x) eqn:El;
    try lia;
    repeat match goal with
           | H : contains _ _ = true |- _ => apply contains_In in H
           end;
    tauto.
Qed.

Lemma compliant_is_long_enough pol s category :
  validate_policy_compliance (CharacterLake_init pol) s category = true ->
  (required_total pol category <= Z.of_nat (List.length s))%Z.
Proof.
  intros Hv. apply validate_true_inv in Hv. destruct Hv as [_ Hmin].
  pose proof (counts_within_length pol s) as Hc. cbv zeta in Hc.
  unfold meets_minimums in Hmin. rewrite lake_policy in Hmin.
  destruct category; cbn in *; lia.
Qed.

(** X6: a compliant password is at least as long as the sum of the
    minimums checked for its category, because the classes of the lake
    do not overlap. *)
Theorem compliant_length_lower_bound pol s category :
  validate_policy_compliance (CharacterLake_init pol) s category = true ->
  (required_total pol category <= Z.of_nat (List.length s))%Z.
Proof. exact (compliant_is_long_enough pol s category). Qed.

Lemma compliant_length_lower_bound_witness :
  (required_total default_policy COMPLEX
     <= Z.of_nat (List.length (lit "ab34CD#$efgh")))%Z.
Proof.
  apply compliant_length_lower_bound. vm_compute. reflexivity.
Defined.

(** * Further properties of generation *)

(** X7: when the minimums checked for a character category add up to
    more than the requested length, no candidate can comply:
    [generate_password] spends all 100 attempts, [100 * length] draws,
    and raises [PolicyViolationError] (given a length that is within
    the bounds and not negative, and an alphabet to draw from). *)
Theorem unsatisfiable_policy_exhausts pol words len category st w :
  category <> PASSPHRASE ->
  (min_length pol <= len <= max_length pol)%Z ->
  (0 <= len < required_total pol category)%Z ->
  len = 0%Z \/ alphabet (CharacterLake_init pol) category <> [] ->
  let run := generate_password (PasswordGenerator_init pol words)
               len category st w in
  fst run = Raise (PolicyViolationError policy_violation_message) /\
  drawn (select_generator st) (snd run)
    = drawn (select_generator st) w + 100 * Z.to_nat len.
Proof.
  intros Hcat Hb Hlen Hne run.
  assert (Hout : loop_outcome (PasswordGenerator_init pol words)
                   (select_generator st)
                   (alphabet (CharacterLake_init pol) category) len category
                   100 w (fst run) (snd run)).
  { subst run. rewrite generate_password_characters by assumption.
    apply attempt_loop_spec. }
  assert (Hrej : forall c,
             candidate (alphabet (CharacterLake_init pol) category) len c ->
             validate_policy_compliance (CharacterLake_init pol) c category
               = false).
  { intros c [Hc _].
    destruct (validate_policy_compliance (CharacterLake_init pol) c category)
      eqn:Hv; [| reflexivity].
    apply compliant_is_long_enough in Hv. lia. }
  cbn [character_lake PasswordGenerator_init] in Hout.
  destruct (fst run) as [s | e]; cbn [loop_outcome] in Hout.
  - destruct Hout as (tried & _ & _ & [Hc Hv] & _).
    cbn [character_lake PasswordGenerator_init] in Hv.
    rewrite (Hrej s Hc) in Hv. discriminate.
  - destruct Hout as [(-> & tried & _ & _ & Hd) | (_ & Hempty & Hpos & _)].
    + split; [reflexivity | exact Hd].
    + destruct Hne as [-> | Hne]; [lia | contradiction].
Qed.

Lemma unsatisfiable_policy_exhausts_witness :
  let run := generate_password
               (PasswordGenerator_init crowded_policy sample_words)
               12 COMPLEX STRONG (entropy0 11 5) in
  fst run = Raise (PolicyViolationError policy_violation_message) /\
  drawn secrets_module (snd run) = 1200.
Proof.
  apply (unsatisfiable_policy_exhausts crowded_policy sample_words 12
           COMPLEX STRONG (entropy0 11 5)).
  - discriminate.
  - cbn. lia.
  - cbn. lia.
  - right. vm_compute. discriminate.
Defined.

(** ** Which source a call draws from *)

Lemma draws_only_from_ret {A : Type} g (a : A) : draws_only_from g (ret a).
Proof. intros w. cbn. auto. Qed.

Lemma draws_only_from_raise {A : Type} g e : draws_only_from g (@raise A e).
Proof. intros w. cbn. auto. Qed.

Lemma draws_only_from_bind {A B : Type} g (m : M A) (k : A -> M B) :
  draws_only_from g m -> (forall a, draws_only_from g (k a)) ->
  draws_only_from g (bind m k).
Proof.
  intros Hm Hk w. unfold bind. specialize (Hm w).
  destruct (m w) as [[a | e] w1]; cbn in Hm.
  - destruct (Hk a w1) as (H1 & H2 & H3). destruct Hm as (M1 & M2 & M3).
    repeat split; congruence.
  - exact Hm.
Qed.

Lemma draws_only_from_randbelow g n : draws_only_from g (randbelow g n).
Proof. intros w. destruct n, g; cbn; auto. Qed.

Lemma draws_only_from_choice {A : Type} g (seq : list A) :
  draws_only_from g (choice g seq).
Proof.
  destruct seq as [| x seq]; [apply draws_only_from_raise |].
  unfold choice. apply draws_only_from_bind;
    [apply draws_only_from_randbelow | intros i; apply draws_only_from_ret].
Qed.

Lemma draws_only_from_comprehension {A : Type} g n (m : M A) :
  draws_only_from g m -> draws_only_from g (comprehension n m).
Proof.
  intros Hm. induction n as [| n IH]; cbn [comprehension].
  - apply draws_only_from_ret.
  - apply draws_only_from_bind; [exact Hm |]. intros x.
    apply draws_only_from_bind; [exact IH |]. intros xs.
    apply draws_only_from_ret.
Qed.

Lemma draws_only_from_shuffle_from {A : Type} i (x : list A) :
  draws_only_from secrets_module (shuffle_from i x).
Proof.
  revert x. induction i as [| i IH]; intros x; cbn [shuffle_from].
  - apply draws_only_from_ret.
  - apply draws_only_from_bind; [apply draws_only_from_randbelow |].
    intros j. apply IH.
Qed.

Lemma draws_only_from_capitalize_randomly words :
  draws_only_from secrets_module (capitalize_randomly words).
Proof.
  induction words as [| word rest IH]; cbn [capitalize_randomly].
  - apply draws_only_from_ret.
  - apply draws_only_from_bind; [apply draws_only_from_randbelow |].
    intros r. apply draws_only_from_bind; [exact IH |].
    intros rest'. apply draws_only_from_ret.
Qed.

Lemma draws_only_from_attempt_loop self g characters len category r :
  draws_only_from g (attempt_loop self g characters len category r).
Proof.
  induction r as [| r IH]; cbn [attempt_loop].
  - apply draws_only_from_raise.
  - apply draws_only_from_bind.
    + apply draws_only_from_comprehension, draws_only_from_choice.
    + intros password.
      destruct (validate_policy_compliance (character_lake self) password
                  category); [apply draws_only_from_ret | exact IH].
Qed.

Lemma draws_only_from_generate_passphrase self word_count st :
  draws_only_from (select_generator st)
    (_generate_passphrase self word_count st).
Proof.
  unfold _generate_passphrase.
  destruct (wordlist self) as [| word rest]; [apply draws_only_from_raise |].
  apply draws_only_from_bind.
  - apply draws_only_from_comprehension, draws_only_from_choice.
  - intros ws. apply draws_only_from_bind.
    + destruct st; cbn [select_generator].
      * apply draws_only_from_ret.
      * apply draws_only_from_bind;
          [apply draws_only_from_capitalize_randomly |].
        intros ws'. apply draws_only_from_bind;
          [apply draws_only_from_choice | intros d; apply draws_only_from_ret].
      * apply draws_only_from_bind; [apply draws_only_from_choice |].
        intros d. apply draws_only_from_bind; [apply draws_only_from_choice |].
        intros s. apply draws_only_from_shuffle_from.
    + intros tokens. apply draws_only_from_bind.
      * destruct st; cbn [select_generator];
          [apply draws_only_from_ret | |]; apply draws_only_from_choice.
      * intros sep. apply draws_only_from_ret.
Qed.

Lemma draws_only_from_generate_password self len category st :
  draws_only_from (select_generator st)
    (generate_password self len category st).
Proof.
  unfold generate_password.
  destruct (negb _); [apply draws_only_from_raise |].
  destruct category; cbn [get_character_set];
    first [apply draws_only_from_attempt_loop
          | apply draws_only_from_generate_passphrase].
Qed.

(** X8: one call binds one source.  With strength BASIC
    [generate_password] and [generate_multiple] draw from the [random]
    module only, with STRONG and PARANOID from [secrets] only, for every
    category; the cursor of the other source does not move. *)
Theorem strength_selects_source self count len category st :
  draws_only_from (select_generator st)
    (generate_password self len category st) /\
  draws_only_from (select_generator st)
    (generate_multiple self count len category st).
Proof.
  split; [apply draws_only_from_generate_password |].
  unfold generate_multiple.
  apply draws_only_from_comprehension, draws_only_from_generate_password.
Qed.

(** ** What a call's result depends on *)

Lemma reads_only_ret {A : Type} g (a : A) : reads_only g (ret a).
Proof. intros w1 w2 H. cbn. auto. Qed.

Lemma reads_only_raise {A : Type} g e : reads_only g (@raise A e).
Proof. intros w1 w2 H. cbn. auto. Qed.

Lemma reads_only_bind {A B : Type} g (m : M A) (k : A -> M B) :
  reads_only g m -> (forall a, reads_only g (k a)) ->
  reads_only g (bind m k).
Proof.
  intros Hm Hk w1 w2 H. unfold bind. destruct (Hm w1 w2 H) as [Hfst Hsnd].
  destruct (m w1) as [[a1 | e1] u1], (m w2) as [[a2 | e2] u2];
    cbn in Hfst, Hsnd; try discriminate.
  - inversion Hfst; subst a2. now apply Hk.
  - cbn. split; [now inversion Hfst | exact Hsnd].
Qed.

Lemma agree_advance g w1 w2 :
  agree g w1 w2 -> agree g (advance g w1) (advance g w2).
Proof.
  intros [Hd Ht]. destruct g; unfold agree in *; cbn in *;
    (split; [now rewrite Hd | exact Ht]).
Qed.

Lemma agree_raw g w1 w2 : agree g w1 w2 -> raw g w1 = raw g w2.
Proof.
  intros [Hd Ht]. destruct g; cbn in *; rewrite Hd; apply Ht.
Qed.

Lemma reads_only_randbelow g n : reads_only g (randbelow g n).
Proof.
  intros w1 w2 H. destruct n as [| n]; cbn; [auto |].
  rewrite (agree_raw g w1 w2 H). split; [reflexivity |].
  now apply agree_advance.
Qed.

Lemma reads_only_choice {A : Type} g (seq : list A) :
  reads_only g (choice g seq).
Proof.
  destruct seq as [| x seq]; [apply reads_only_raise |].
  unfold choice. apply reads_only_bind;
    [apply reads_only_randbelow | intros i; apply reads_only_ret].
Qed.

Lemma reads_only_comprehension {A : Type} g n (m : M A) :
  reads_only g m -> reads_only g (comprehension n m).
Proof.
  intros Hm. induction n as [| n IH]; cbn [comprehension].
  - apply reads_only_ret.
  - apply reads_only_bind; [exact Hm |]. intros x.
    apply reads_only_bind; [exact IH |]. intros xs. apply reads_only_ret.
Qed.

Lemma reads_only_shuffle_from {A : Type} i (x : list A) :
  reads_only secrets_module (shuffle_from i x).
Proof.
  revert x. induction i as [| i IH]; intros x; cbn [shuffle_from].
  - apply reads_only_ret.
  - apply reads_only_bind; [apply reads_only_randbelow |].
    intros j. apply IH.
Qed.

Lemma reads_only_capitalize_randomly words :
  reads_only secrets_module (capitalize_randomly words).
Proof.
  induction words as [| word rest IH]; cbn [capitalize_randomly].
  - apply reads_only_ret.
  - apply reads_only_bind; [apply reads_only_randbelow |].
    intros r. apply reads_only_bind; [exact IH |].
    intros rest'. apply reads_only_ret.
Qed.

Lemma reads_only_attempt_loop self g characters len category r :
  reads_only g (attempt_loop self g characters len category r).
Proof.
  induction r as [| r IH]; cbn [attempt_loop].
  - apply reads_only_raise.
  - apply reads_only_bind.
    + apply reads_only_comprehension, reads_only_choice.
    + intros password.
      destruct (validate_policy_compliance (character_lake self) password
                  category); [apply reads_only_ret | exact IH].
Qed.

Lemma reads_only_generate_passphrase self word_count st :
  reads_only (select_generator st) (_generate_passphrase self word_count st).
Proof.
  unfold _generate_passphrase.
  destruct (wordlist self) as [| word rest]; [apply reads_only_raise |].
  apply reads_only_bind.
  - apply reads_only_comprehension, reads_only_choice.
  - intros ws. apply reads_only_bind.
    + destruct st; cbn [select_generator].
      * apply reads_only_ret.
      * apply reads_only_bind; [apply reads_only_capitalize_randomly |].
        intros ws'. apply reads_only_bind;
          [apply reads_only_choice | intros d; apply reads_only_ret].
      * apply reads_only_bind; [apply reads_only_choice |].
        intros d. apply reads_only_bind; [apply reads_only_choice |].
        intros s. apply reads_only_shuffle_from.
    + intros tokens. apply reads_only_bind.
      * destruct st; cbn [select_generator];
          [apply reads_only_ret | |]; apply reads_only_choice.
      * intros sep. apply reads_only_ret.
Qed.

Lemma reads_only_generate_password self len category st :
  reads_only (select_generator st) (generate_password self len category st).
Proof.
  unfold generate_password.
  destruct (negb _); [apply reads_only_raise |].
  destruct category; cbn [get_character_set];
    first [apply reads_only_attempt_loop
          | apply reads_only_generate_passphrase].
Qed.

(** X9: the outcome of [generate_password] and of [generate_multiple] is
    a function of the source that the strength selects: two runs that
    start with the same tape and cursor of that source return the same
    string or raise the same exception, whatever the other source holds.
    With BASIC this is reproducibility from the state of [random]. *)
Theorem outcome_depends_on_selected_source
    self count len category st w1 w2 :
  agree (select_generator st) w1 w2 ->
  fst (generate_password self len category st w1) =
  fst (generate_password self len category st w2) /\
  fst (generate_multiple self count len category st w1) =
  fst (generate_multiple self count len category st w2).
Proof.
  intros H. split.
  - apply (reads_only_generate_password self len category st w1 w2 H).
  - unfold generate_multiple.
    apply (reads_only_comprehension (select_generator st) (Z.to_nat count)
             _ (reads_only_generate_password self len category st) w1 w2 H).
Qed.

Lemma outcome_depends_on_selected_source_witness :
  fst (generate_password (PasswordGenerator_init default_policy sample_words)
         12 COMPLEX BASIC (entropy_pair 11 5 7 3)) =
  fst (generate_password (PasswordGenerator_init default_policy sample_words)
         12 COMPLEX BASIC (entropy_pair 11 5 13 1)).
Proof.
  apply (outcome_depends_on_selected_source
           (PasswordGenerator_init default_policy sample_words) 1 12 COMPLEX
           BASIC (entropy_pair 11 5 7 3) (entropy_pair 11 5 13 1)).
  split; [reflexivity | intros k; reflexivity].
Defined.

(** ** Passphrases by strength *)

Lemma draw_many_total {A : Type} (g : Generator) (seq : list A) n w :
  seq <> [] ->
  exists l w',
    comprehension n (choice g seq) w = (Return l, w') /\
    List.length l = n /\ Forall (fun x => In x seq) l /\
    drawn g w' = drawn g w + n.
Proof.
  intros Hne. generalize (draw_many_spec g seq n w).
  destruct (comprehension n (choice g seq) w) as [[l | e] w'].
  - intros H. now exists l, w'.
  - intros (-> & _). contradiction.
Qed.

Lemma in_bounds_passphrase self len st w :
  (min_length (generator_policy self) <= len
     <= max_length (generator_policy self))%Z ->
  generate_password self len PASSPHRASE st w =
  _generate_passphrase self len st w.
Proof.
  intros Hb. unfold generate_password. now rewrite (in_bounds_check _ _ Hb).
Qed.

(** X10: with strength BASIC and a non-empty word list, an in-bounds
    passphrase call always returns: the result is [max(n, 0)] words of
    the list, unchanged, joined by single spaces, for exactly that many
    draws from [random]. *)
Theorem basic_passphrase pol corpus n w :
  corpus <> [] ->
  (min_length pol <= n <= max_length pol)%Z ->
  exists words w',
    generate_password (PasswordGenerator_init pol corpus) n PASSPHRASE BASIC w
      = (Return (join (lit " ") words), w') /\
    List.length words = Z.to_nat n /\
    Forall (fun word => In word corpus) words /\
    drawn random_module w' = drawn random_module w + Z.to_nat n.
Proof.
  intros Hne Hb. rewrite in_bounds_passphrase by exact Hb.
  unfold _generate_passphrase. cbn [wordlist PasswordGenerator_init].
  destruct corpus as [| word rest] eqn:Ec; [contradiction |].
  rewrite <- Ec. cbn [select_generator].
  destruct (draw_many_total random_module corpus (Z.to_nat n) w)
    as (words & w1 & Hrun & Hlen & Hin & Hd); [now rewrite Ec |].
  exists words, w1. split; [| now repeat split].
  rewrite (bind_step _ _ _ _ _ Hrun). reflexivity.
Qed.

Lemma basic_passphrase_witness :
  exists words w',
    generate_password (PasswordGenerator_init default_policy sample_words)
      12 PASSPHRASE BASIC (entropy0 7 3)
      = (Return (join (lit " ") words), w') /\
    List.length words = 12 /\
    drawn random_module w' = 12.
Proof.
  destruct (basic_passphrase default_policy sample_words 12 (entropy0 7 3))
    as (words & w' & Hrun & Hlen & _ & Hd).
  - discriminate.
  - cbn. lia.
  - exists words, w'. repeat split; assumption.
Defined.

Lemma capitalize_randomly_spec words w :
  exists tokens w',
    capitalize_randomly words w = (Return tokens, w') /\
    Forall2 as_is_or_capitalized words tokens /\
    drawn secrets_module w' = drawn secrets_module w + List.length words.
Proof.
  revert w. induction words as [| word rest IH]; intros w.
  - exists [], w. cbn. repeat split; auto.
  - cbn [capitalize_randomly]. unfold bind at 1. cbn [randbelow].
    destruct (IH (advance secrets_module w)) as (tokens & w' & Hrun & Hall & Hd).
    rewrite (bind_step _ _ _ _ _ Hrun).
    eexists. exists w'. split; [reflexivity |]. split.
    + constructor; [| exact Hall]. unfold as_is_or_capitalized.
      destruct (_ =? 0); auto.
    + rewrite Hd, drawn_advance. cbn [List.length]. lia.
Qed.

(** The STRONG loop capitalizes the words whose draw is not 0. *)
Lemma capitalize_randomly_draws words w :
  fst (capitalize_randomly words w)
    = Return (capitalized_by (secrets_tape w) (secrets_drawn w) words).
Proof.
  revert w. induction words as [| word rest IH]; intros w.
  - reflexivity.
  - cbn [capitalize_randomly capitalized_by]. unfold bind at 1.
    cbn [randbelow]. pose proof (IH (advance secrets_module w)) as Hrest.
    unfold bind.
    destruct (capitalize_randomly rest (advance secrets_module w))
      as [[tokens | e] w1]; cbn [fst] in Hrest; [| discriminate].
    injection Hrest as Hrest. subst tokens. reflexivity.
Qed.

(** X11: with strength STRONG, a non-empty word list of 7-bit words and
    a non-empty digit class, an in-bounds passphrase call always
    returns: the tokens are [max(n, 0)] words of the list, each one as
    it is when its [randbelow(2)] draw is 0 and capitalized otherwise,
    followed by one digit of the lake, joined by one of the five
    separators; it spends [2 * max(n, 0) + 2] draws from [secrets]. *)
Theorem strong_passphrase pol corpus n w :
  Forall ascii_text corpus ->
  corpus <> [] ->
  digits (CharacterLake_init pol) <> [] ->
  (min_length pol <= n <= max_length pol)%Z ->
  exists words tokens d sep w',
    generate_password (PasswordGenerator_init pol corpus) n PASSPHRASE STRONG w
      = (Return (join sep (tokens ++ [[d]])), w') /\
    List.length words = Z.to_nat n /\
    Forall (fun word => In word corpus) words /\
    tokens = capitalized_by (secrets_tape w)
               (secrets_drawn w + Z.to_nat n) words /\
    Forall2 as_is_or_capitalized words tokens /\
    In d (digits (CharacterLake_init pol)) /\
    In sep separators /\
    drawn secrets_module w' = drawn secrets_module w + 2 * Z.to_nat n + 2.
Proof.
  intros _ Hne Hdig Hb. rewrite in_bounds_passphrase by exact Hb.
  unfold _generate_passphrase.
  cbn [wordlist character_lake PasswordGenerator_init].
  destruct corpus as [| word rest] eqn:Ec; [contradiction |].
  rewrite <- Ec. cbn [select_generator].
  destruct (draw_many_total secrets_module corpus (Z.to_nat n) w)
    as (words & w1 & Hwords & Hlen & Hin & Hd1); [now rewrite Ec |].
  assert (Htape1 : secrets_tape w1 = secrets_tape w).
  { pose proof (draws_only_from_comprehension secrets_module (Z.to_nat n)
                  (choice secrets_module corpus)
                  (draws_only_from_choice secrets_module corpus) w)
      as (_ & Ht & _).
    now rewrite Hwords in Ht. }
  destruct (capitalize_randomly_spec words w1)
    as (tokens & w2 & Hcap & Hall & Hd2).
  assert (Htokens : tokens = capitalized_by (secrets_tape w)
                               (secrets_drawn w + Z.to_nat n) words).
  { pose proof (capitalize_randomly_draws words w1) as Hdraws.
    rewrite Hcap in Hdraws. cbn [fst] in Hdraws. injection Hdraws as ->.
    cbn [drawn] in Hd1. now rewrite Htape1, Hd1. }
  destruct (choice_total secrets_module (digits (CharacterLake_init pol)) w2 Hdig)
    as (d & Hdigit).
  destruct (choice_total secrets_module separators
              (advance secrets_module w2)) as (sep & Hsep);
    [discriminate |].
  exists words, tokens, d, sep, (advance secrets_module (advance secrets_module w2)).
  split.
  - rewrite (bind_step _ _ _ _ _ Hwords).
    unfold bind at 1. unfold bind at 1. rewrite Hcap.
    unfold bind at 1. rewrite Hdigit. cbn [ret].
    unfold bind. rewrite Hsep. reflexivity.
  - repeat split; try assumption.
    + apply (choice_Return _ _ _ _ _ Hdigit).
    + apply (choice_Return _ _ _ _ _ Hsep).
    + rewrite !drawn_advance, Hd2, Hd1, Hlen. lia.
Qed.

Lemma strong_passphrase_witness :
  exists words tokens d sep w',
    generate_password (PasswordGenerator_init default_policy sample_words)
      12 PASSPHRASE STRONG (entropy0 7 3)
      = (Return (join sep (tokens ++ [[d]])), w') /\
    List.length words = 12 /\
    Forall2 as_is_or_capitalized words tokens /\
    drawn secrets_module w' = 26.
Proof.
  destruct (strong_passphrase default_policy sample_words 12 (entropy0 7 3))
    as (words & tokens & d & sep & w' & Hrun & Hlen & _ & _ & Hall & _ & _ & Hd).
  - repeat constructor.
  - discriminate.
  - vm_compute. discriminate.
  - cbn. lia.
  - exists words, tokens, d, sep, w'. repeat split; assumption.
Defined.

Lemma choice_empty {A : Type} g w :
  choice g (@nil A) w = (Raise empty_sequence_error, w).
Proof. reflexivity. Qed.

(** X12: exclusions that empty a class break the stronger passphrases.
    With a non-empty word list and a word count within the bounds, an
    empty digit class makes every STRONG and PARANOID passphrase call
    raise [IndexError], and an empty special class makes every PARANOID
    call raise it; the words are drawn first and then thrown away. *)
Theorem emptied_class_fails_passphrase pol corpus n st w :
  corpus <> [] ->
  (min_length pol <= n <= max_length pol)%Z ->
  let self := PasswordGenerator_init pol corpus in
  (digits (CharacterLake_init pol) = [] -> st <> BASIC ->
   fst (generate_password self n PASSPHRASE st w)
     = Raise empty_sequence_error) /\
  (special (CharacterLake_init pol) = [] ->
   fst (generate_password self n PASSPHRASE PARANOID w)
     = Raise empty_sequence_error).
Proof.
  intros Hne Hb self. subst self.
  rewrite !in_bounds_passphrase by exact Hb.
  unfold _generate_passphrase.
  cbn [wordlist character_lake PasswordGenerator_init].
  destruct corpus as [| word rest] eqn:Ec; [contradiction |].
  rewrite <- Ec. split.
  - intros Hd Hst.
    destruct (draw_many_total (select_generator st) corpus (Z.to_nat n) w)
      as (words & w1 & Hwords & _); [now rewrite Ec |].
    rewrite (bind_step _ _ _ _ _ Hwords). rewrite Hd.
    destruct st; [contradiction | |].
    + destruct (capitalize_randomly_spec words w1)
        as (tokens & w2 & Hcap & _).
      unfold bind at 1. unfold bind at 1. rewrite Hcap.
      unfold bind at 1. rewrite choice_empty. reflexivity.
    + unfold bind at 1. unfold bind at 1. rewrite choice_empty. reflexivity.
  - intros Hs. cbn [select_generator].
    destruct (draw_many_total secrets_module corpus (Z.to_nat n) w)
      as (words & w1 & Hwords & _); [now rewrite Ec |].
    rewrite (bind_step _ _ _ _ _ Hwords). rewrite Hs.
    unfold bind at 1. unfold bind at 1.
    generalize (choice_spec secrets_module (digits (CharacterLake_init pol)) w1).
    destruct (choice secrets_module (digits (CharacterLake_init pol)) w1)
      as [[d | e] w2].
    + intros _. unfold bind at 1. rewrite choice_empty. reflexivity.
    + intros (_ & -> & _). reflexivity.
Qed.

Lemma emptied_class_fails_passphrase_witness :
  fst (generate_password (PasswordGenerator_init no_digits_policy sample_words)
         12 PASSPHRASE STRONG (entropy0 7 3))
    = Raise empty_sequence_error /\
  fst (generate_password (PasswordGenerator_init no_special_policy sample_words)
         12 PASSPHRASE PARANOID (entropy0 7 3))
    = Raise empty_sequence_error.
Proof.
  split.
  - apply (proj1 (emptied_class_fails_passphrase no_digits_policy sample_words
                    12 STRONG (entropy0 7 3) ltac:(discriminate)
                    ltac:(cbn; lia))).
    + reflexivity.
    + discriminate.
  - apply (proj2 (emptied_class_fails_passphrase no_special_policy sample_words
                    12 PARANOID (entropy0 7 3) ltac:(discriminate)
                    ltac:(cbn; lia))).
    reflexivity.
Defined.

(** ** The word list *)

Lemma attempt_loop_ignores_wordlist pol words words' g characters len
    category r w :
  attempt_loop (PasswordGenerator_init pol words) g characters len category r w =
  attempt_loop (PasswordGenerator_init pol words') g characters len category r w.
Proof.
  revert w. induction r as [| r IH]; intros w; cbn [attempt_loop].
  - reflexivity.
  - unfold bind.
    destruct (comprehension (Z.to_nat len) (choice g characters) w)
      as [[password | e] w1]; [| reflexivity].
    cbn [character_lake PasswordGenerator_init].
    destruct (validate_policy_compliance (CharacterLake_init pol) password
                category); [reflexivity | apply IH].
Qed.

(** X13: the word list matters for passphrases only.  A character
    category gives the same outcome over any two word lists, the empty
    one included; a passphrase call over an empty word list raises
    [PasswordGeneratorError] before anything is drawn, for every
    strength and every word count within the bounds. *)
Theorem wordlist_matters_for_passphrases_only pol words words' len
    category st w :
  (category <> PASSPHRASE ->
   generate_password (PasswordGenerator_init pol words) len category st w =
   generate_password (PasswordGenerator_init pol words') len category st w) /\
  ((min_length pol <= len <= max_length pol)%Z ->
   generate_password (PasswordGenerator_init pol []) len PASSPHRASE st w =
   (Raise (PasswordGeneratorError "Passphrase generation requires a wordlist"),
    w)).
Proof.
  split.
  - intros Hcat. unfold generate_password.
    cbn [generator_policy character_lake PasswordGenerator_init].
    destruct (negb _); [reflexivity |].
    destruct category; [| | contradiction];
      cbn [get_character_set]; apply attempt_loop_ignores_wordlist.
  - intros Hb. now rewrite in_bounds_passphrase by exact Hb.
Qed.

Lemma wordlist_matters_for_passphrases_only_witness :
  generate_password (PasswordGenerator_init default_policy sample_words)
    12 COMPLEX STRONG (entropy0 11 5) =
  generate_password (PasswordGenerator_init default_policy [])
    12 COMPLEX STRONG (entropy0 11 5) /\
  generate_password (PasswordGenerator_init default_policy [])
    12 PASSPHRASE STRONG (entropy0 11 5) =
  (Raise (PasswordGeneratorError "Passphrase generation requires a wordlist"),
   entropy0 11 5).
Proof.
  split.
  - apply (proj1 (wordlist_matters_for_passphrases_only default_policy
                    sample_words [] 12 COMPLEX STRONG (entropy0 11 5))).
    discriminate.
  - apply (proj2 (wordlist_matters_for_passphrases_only default_policy
                    sample_words [] 12 PASSPHRASE STRONG (entropy0 11 5))).
    cbn. lia.
Defined.

(** ** Batches *)

Lemma comprehension_add {A : Type} (n k : nat) (e : M A) w :
  comprehension (n + k) e w =
  (xs <- comprehension n e ;; ys <- comprehension k e ;; ret (xs ++ ys)) w.
Proof.
  revert w. induction n as [| n IH]; intros w.
  - cbn [Nat.add comprehension]. unfold bind, ret. cbn [app].
    now destruct (comprehension k e w) as [[ys | err] w1].
  - cbn [Nat.add comprehension]. unfold bind at 1 3 4.
    destruct (e w) as [[x | err] w1]; [| reflexivity].
    unfold bind at 1 3. rewrite IH. unfold bind, ret.
    destruct (comprehension n e w1) as [[xs | err] w2]; [| reflexivity].
    now destruct (comprehension k e w2) as [[ys | err] w3].
Qed.

(** X14: batches compose.  A batch of [a + b] passwords is a batch of
    [a] followed by a batch of [b] on the randomness the first one left,
    with the lists appended and the first exception winning; and a count
    of zero or less returns the empty list at once, without drawing and
    without looking at the length. *)
Theorem generate_multiple_splits self a b len category st w :
  ((0 <= a)%Z -> (0 <= b)%Z ->
   generate_multiple self (a + b) len category st w =
   (xs <- generate_multiple self a len category st ;;
    ys <- generate_multiple self b len category st ;;
    ret (xs ++ ys)) w) /\
  ((a <= 0)%Z ->
   generate_multiple self a len category st w = (Return [], w)).
Proof.
  split.
  - intros Ha Hb. unfold generate_multiple.
    rewrite Z2Nat.inj_add by assumption. apply comprehension_add.
  - intros Ha. unfold generate_multiple.
    replace (Z.to_nat a) with 0 by lia. reflexivity.
Qed.

Lemma generate_multiple_splits_witness :
  generate_multiple (PasswordGenerator_init default_policy sample_words)
    (2 + 3) 12 COMPLEX STRONG (entropy0 11 5) =
  (xs <- generate_multiple (PasswordGenerator_init default_policy sample_words)
           2 12 COMPLEX STRONG ;;
   ys <- generate_multiple (PasswordGenerator_init default_policy sample_words)
           3 12 COMPLEX STRONG ;;
   ret (xs ++ ys)) (entropy0 11 5) /\
  generate_multiple (PasswordGenerator_init default_policy sample_words)
    0 5 COMPLEX STRONG (entropy0 11 5) = (Return [], entropy0 11 5).
Proof.
  split.
  - apply (proj1 (generate_multiple_splits
                    (PasswordGenerator_init default_policy sample_words)
                    2 3 12 COMPLEX STRONG (entropy0 11 5))); lia.
  - apply (proj2 (generate_multiple_splits
                    (PasswordGenerator_init default_policy sample_words)
                    0 3 5 COMPLEX STRONG (entropy0 11 5))). lia.
Defined.

(** * Loading the word list *)











(** X16: constructing a generator.  An unreadable word-list file makes
    the constructor raise [PasswordGeneratorError]; a readable file whose
    lines are all blank gives a generator, with the default policy when
    none is passed, on which every passphrase call with a word count
    within the bounds raises the missing-word-list error before
    anything is drawn. *)
Theorem constructor_and_blank_files pol lines :
  PasswordGenerator_new pol Unreadable = Raise wordlist_load_error /\
  (Forall (fun line => strip line = []) lines ->
   exists self,
     PasswordGenerator_new pol (Lines lines) = Return self /\
     generator_policy self =
       match pol with Some p => p | None => default_policy end /\
     forall n st w,
       (min_length (generator_policy self) <= n
          <= max_length (generator_policy self))%Z ->
       generate_password self n PASSPHRASE st w
         = (Raise missing_wordlist_error, w)).
Proof.
  split; [reflexivity |].
  intros Hblank.
  assert (Hnone : filter (fun line => truthy (strip line)) lines = []).
  { induction Hblank as [| line rest Hl _ IH]; [reflexivity |].
    cbn [filter]. now rewrite Hl. }
  eexists. split.
  - unfold PasswordGenerator_new, _load_wordlist. rewrite Hnone. reflexivity.
  - split; [reflexivity |].
    intros n st w Hb. now rewrite in_bounds_passphrase by exact Hb.
Qed.

Lemma constructor_and_blank_files_witness :
  exists self,
    PasswordGenerator_new None (Lines [lit "  "; []; [" "%char; "009"%char]])
      = Return self /\
    generate_password self 12 PASSPHRASE BASIC (entropy0 7 3)
      = (Raise missing_wordlist_error, entropy0 7 3).
Proof.
  destruct (proj2 (constructor_and_blank_files None
                     [lit "  "; []; [" "%char; "009"%char]]))
    as (self & Hnew & Hpol & Hrun).
  - repeat constructor.
  - exists self. split; [exact Hnew |].
    apply Hrun. rewrite Hpol. cbn. lia.
Defined.

(** * The command line *)

Lemma attempt_loop_raises_nonempty (P : Exception -> Prop) self g characters
    len category r :
  characters <> [] ->
  P (PolicyViolationError policy_violation_message) ->
  raises_only P (attempt_loop self g characters len category r).
Proof.
  intros Hne Hp w e w' H.
  generalize (attempt_loop_spec self g characters len category r w).
  rewrite H. cbn. intros [(-> & _) | (_ & Hc & _)];
    [assumption | contradiction].
Qed.

Lemma generate_passphrase_raises_nonempty (P : Exception -> Prop) self
    word_count st :
  digits (character_lake self) <> [] ->
  special (character_lake self) <> [] ->
  P missing_wordlist_error ->
  raises_only P (_generate_passphrase self word_count st).
Proof.
  intros Hd Hs Hw. unfold _generate_passphrase.
  destruct (wordlist self) as [| word rest] eqn:Ewl.
  - now apply raises_only_raise.
  - apply raises_only_bind.
    + apply raises_only_comprehension.
      apply raises_only_choice_nonempty. discriminate.
    + intros ws. apply raises_only_bind.
      * destruct st.
        -- apply raises_only_ret.
        -- apply raises_only_bind; [apply raises_only_capitalize_randomly |].
           intros ws'. apply raises_only_bind;
             [now apply raises_only_choice_nonempty
             | intros d; apply raises_only_ret].
        -- apply raises_only_bind; [now apply raises_only_choice_nonempty |].
           intros d. apply raises_only_bind;
             [now apply raises_only_choice_nonempty |].
           intros s. apply raises_only_shuffle_from.
      * intros tokens. apply raises_only_bind.
        -- destruct st; [apply raises_only_ret | |];
             apply raises_only_choice_nonempty; discriminate.
        -- intros sep. apply raises_only_ret.
Qed.

(** Under the default policy a call raises one of the generator's own
    exceptions or none. *)
Lemma default_policy_raises words len category st :
  raises_only (fun e => is_generator_error e = true)
    (generate_password (PasswordGenerator_init default_policy words)
       len category st).
Proof.
  unfold generate_password.
  destruct (negb _); [now apply raises_only_raise |].
  destruct category; cbn [get_character_set].
  - apply attempt_loop_raises_nonempty; [vm_compute; discriminate | reflexivity].
  - apply attempt_loop_raises_nonempty; [vm_compute; discriminate | reflexivity].
  - apply generate_passphrase_raises_nonempty;
      [vm_compute; discriminate | vm_compute; discriminate | reflexivity].
Qed.

(** Over a word list that was read, a run does not end in the catch-all
    handler: under the default policy, which is the one the command line
    uses, no character class is empty, so no [IndexError] can escape. *)
Lemma decoded_wordlist_is_not_unexpected args lines can_write w e :
  fst (run_from_args args (Lines lines) can_write w) <> UnexpectedError e.
Proof.
  unfold run_from_args, PasswordGenerator_new. cbn [_load_wordlist].
  set (words := map strip (filter (fun line => truthy (strip line)) lines)).
  assert (Hout : forall result, output_stage args can_write result
                                <> UnexpectedError e).
  { intros result. unfold output_stage.
    destruct (args_output args) as [[| c name] |]; try discriminate.
    destruct (can_write (c :: name)); discriminate. }
  assert (Hhandle : forall e', is_generator_error e' = true ->
                               handle e' <> UnexpectedError e).
  { intros e' He'. unfold handle. rewrite He'. discriminate. }
  destruct (args_count args =? 1)%Z.
  - destruct (generate_password _ _ _ _ w) as [[password | e'] w'] eqn:Hrun;
      cbn [fst]; [apply Hout |].
    apply Hhandle. exact (default_policy_raises _ _ _ _ _ _ _ Hrun).
  - destruct (generate_multiple _ _ _ _ _ w) as [[passwords | e'] w'] eqn:Hrun;
      cbn [fst]; [apply Hout |].
    apply Hhandle. unfold generate_multiple in Hrun.
    exact (raises_only_comprehension _ _ _
             (default_policy_raises _ _ _ _) _ _ _ Hrun).
Qed.

(** X17: when [run_from_args] ends in its catch-all handler.  It does so
    exactly when the word-list file cannot be decoded, and the exception
    is then that [UnicodeDecodeError] (a [ValueError]), with nothing
    drawn.  An unreadable file ends the run in the
    [PasswordGeneratorError] handler with the load error, and every
    failure to generate over a word list that was read is one of the
    generator's own exceptions and goes to that handler too. *)
Theorem cli_catch_all_is_decode_error args file can_write w e :
  (fst (run_from_args args file can_write w) = UnexpectedError e <->
   exists message, file = Undecodable message /\ e = ValueError message) /\
  (forall message,
     run_from_args args (Undecodable message) can_write w
       = (UnexpectedError (ValueError message), w)) /\
  run_from_args args Unreadable can_write w = (Error wordlist_load_error, w).
Proof.
  split; [| split; [intros message |]; reflexivity].
  split.
  - intros H. destruct file as [| message | lines].
    + discriminate H.
    + exists message. split; [reflexivity |].
      unfold run_from_args, PasswordGenerator_new, handle in H.
      cbn in H. now inversion H.
    + exfalso. exact (decoded_wordlist_is_not_unexpected _ _ _ _ _ H).
  - intros (message & -> & ->). reflexivity.
Qed.

(** X18: the result of a successful run.  With [--count 1] it holds one
    string under the key [password], with any other count a list of
    [max(count, 0)] strings under [passwords]; the category, strength,
    length and count follow as given; and for a character category every
    string satisfies the postcondition of [generate_password] under the
    default policy. *)
Theorem cli_result_shape args file can_write w result :
  result_of (fst (run_from_args args file can_write w)) = Some result ->
  let good :=
    fun s => args_category args <> PASSPHRASE ->
             character_postcondition default_policy (args_length args)
               (args_category args) s in
  if (args_count args =? 1)%Z then
    exists password,
      result = ("password"%string, JString password) :: metadata args /\
      good password
  else
    exists passwords,
      result = ("passwords"%string, JStrings passwords) :: metadata args /\
      Z.of_nat (List.length passwords) = Z.max 0 (args_count args) /\
      Forall good passwords.
Proof.
  intros H good.
  unfold run_from_args, PasswordGenerator_new in H.
  destruct file as [| message | lines]; cbn [_load_wordlist] in H;
    [discriminate | discriminate |].
  set (words := map strip (filter (fun line => truthy (strip line)) lines)) in H.
  assert (Hout : forall r, result_of (output_stage args can_write r) = Some result
                           -> result = r).
  { intros r. unfold output_stage.
    destruct (args_output args) as [[| c name] |]; cbn;
      try (intros H'; now inversion H').
    destruct (can_write (c :: name)); cbn; [| discriminate].
    intros H'; now inversion H'. }
  assert (Hhandle : forall e, result_of (handle e) <> Some result).
  { intros e. unfold handle. destruct (is_generator_error e); discriminate. }
  destruct (args_count args =? 1)%Z.
  - destruct (generate_password _ _ _ _ w) as [[password | e] w'] eqn:Hrun;
      cbn [fst] in H; [| now apply Hhandle in H].
    exists password. split; [now apply Hout |].
    intros Hcat. now apply (returned_password_spec _ _ _ _ _ _ _ _ Hcat Hrun).
  - destruct (generate_multiple _ _ _ _ _ w) as [[passwords | e] w'] eqn:Hrun;
      cbn [fst] in H; [| now apply Hhandle in H].
    exists passwords. split; [now apply Hout |].
    unfold generate_multiple in Hrun.
    generalize (comprehension_calls
                  (generate_password (PasswordGenerator_init default_policy words)
                     (args_length args) (args_category args)
                     (args_strength args))
                  (Z.to_nat (args_count args)) w).
    rewrite Hrun. intros [Hlen Hcalls]. split; [lia |].
    refine (calls_Forall _ good _ passwords w w' Hcalls).
    intros w0 s w1 Hs Hcat.
    now apply (returned_password_spec _ _ _ _ _ _ _ _ Hcat Hs).
Qed.

Lemma cli_result_shape_witness :
  exists passwords,
    result_of (fst (run_from_args sample_args sample_file (fun _ => true)
                      (entropy0 11 5)))
      = Some (("passwords"%string, JStrings passwords) :: metadata sample_args) /\
    Z.of_nat (List.length passwords) = 2%Z.
Proof.
  destruct (result_of (fst (run_from_args sample_args sample_file
                              (fun _ => true) (entropy0 11 5))))
    as [result |] eqn:Hres; [| vm_compute in Hres; discriminate].
  pose proof (cli_result_shape _ _ _ _ _ Hres) as H. cbv zeta in H.
  change (args_count sample_args =? 1)%Z with false in H.
  destruct H as (passwords & -> & Hlen & _).
  exists passwords. split; [reflexivity | exact Hlen].
Defined.

Lemma comprehension_first_raises {A : Type} (m : M A) n w e w' :
  0 < n -> m w = (Raise e, w') -> comprehension n m w = (Raise e, w').
Proof.
  intros Hn Hm. destruct n as [| n]; [lia |].
  cbn [comprehension]. now apply bind_stop.
Qed.

(** X19: the length check at the command line.  With a word list that
    was read as text and a count of at least one, a length outside
    12..128 ends the run in the [PasswordGeneratorError] handler with the
    input-validation error and exit status 1, and nothing is drawn;
    with a count of zero or less no call is made, so the run succeeds
    with an empty [passwords] list whatever the length is. *)
Theorem cli_length_check args lines can_write w :
  ((1 <= args_count args)%Z ->
   (args_length args < 12 \/ args_length args > 128)%Z ->
   run_from_args args (Lines lines) can_write w =
   (Error (InputValidationError "Password length must be between 12 and 128"),
    w)) /\
  ((args_count args <= 0)%Z ->
   run_from_args args (Lines lines) can_write w =
   (output_stage args can_write
      (("passwords"%string, JStrings []) :: metadata args), w)).
Proof.
  unfold run_from_args, PasswordGenerator_new. cbn [_load_wordlist].
  set (words := map strip (filter (fun line => truthy (strip line)) lines)).
  split.
  - intros Hcount Hlen.
    assert (Hcall : generate_password
                      (PasswordGenerator_init default_policy words)
                      (args_length args) (args_category args)
                      (args_strength args) w =
                    (Raise (InputValidationError
                              "Password length must be between 12 and 128"), w)).
    { unfold generate_password.
      cbn [generator_policy PasswordGenerator_init].
      rewrite out_of_bounds_check by (cbn; lia). reflexivity. }
    destruct (args_count args =? 1)%Z.
    + now rewrite Hcall.
    + unfold generate_multiple.
      rewrite (comprehension_first_raises _ (Z.to_nat (args_count args)) _ _ _
                 ltac:(lia) Hcall).
      reflexivity.
  - intros Hcount.
    destruct (Z.eqb_spec (args_count args) 1) as [E | _]; [lia |].
    unfold generate_multiple.
    replace (Z.to_nat (args_count args)) with 0 by lia. reflexivity.
Qed.

Lemma cli_length_check_witness :
  run_from_args short_args sample_file (fun _ => true) (entropy0 11 5) =
  (Error (InputValidationError "Password length must be between 12 and 128"),
   entropy0 11 5) /\
  run_from_args zero_count_args sample_file (fun _ => true) (entropy0 11 5) =
  (Printed (("passwords"%string, JStrings []) :: metadata zero_count_args),
   entropy0 11 5).
Proof.
  split.
  - apply (proj1 (cli_length_check short_args
                    [lit "abacus"; lit "  ablaze "; lit "able"]
                    (fun _ => true) (entropy0 11 5))); cbn; lia.
  - apply (proj2 (cli_length_check zero_count_args
                    [lit "abacus"; lit "  ablaze "; lit "able"]
                    (fun _ => true) (entropy0 11 5))); cbn; lia.
Defined.

Lemma comprehension_returns {A : Type} (m : M A) :
  (forall w, exists x w', m w = (Return x, w')) ->
  forall n w, exists xs w', comprehension n m w = (Return xs, w').
Proof.
  intros Hm n. induction n as [| n IH]; intros w; cbn [comprehension].
  - now exists [], w.
  - destruct (Hm w) as (x & w1 & Hx). destruct (IH w1) as (xs & w2 & Hxs).
    exists (x :: xs), w2. rewrite (bind_step _ _ _ _ _ Hx).
    now rewrite (bind_step _ _ _ _ _ Hxs).
Qed.

Lemma passphrase_never_raises self word_count st :
  wordlist self <> [] ->
  digits (character_lake self) <> [] ->
  special (character_lake self) <> [] ->
  raises_only (fun _ => False) (_generate_passphrase self word_count st).
Proof.
  intros Hw Hd Hs. unfold _generate_passphrase.
  destruct (wordlist self) as [| word rest] eqn:Ewl; [contradiction |].
  apply raises_only_bind.
  - apply raises_only_comprehension.
    apply raises_only_choice_nonempty. discriminate.
  - intros ws. apply raises_only_bind.
    + destruct st.
      * apply raises_only_ret.
      * apply raises_only_bind; [apply raises_only_capitalize_randomly |].
        intros ws'. apply raises_only_bind;
          [now apply raises_only_choice_nonempty
          | intros d; apply raises_only_ret].
      * apply raises_only_bind; [now apply raises_only_choice_nonempty |].
        intros d. apply raises_only_bind;
          [now apply raises_only_choice_nonempty |].
        intros s. apply raises_only_shuffle_from.
    + intros tokens. apply raises_only_bind.
      * destruct st; [apply raises_only_ret | |];
          apply raises_only_choice_nonempty; discriminate.
      * intros sep. apply raises_only_ret.
Qed.

(** Under the default policy a passphrase call over a non-empty word
    list returns whenever the word count is within the bounds. *)
Lemma default_passphrase_returns words n st w :
  words <> [] -> (12 <= n <= 128)%Z ->
  exists s w',
    generate_password (PasswordGenerator_init default_policy words)
      n PASSPHRASE st w = (Return s, w').
Proof.
  intros Hne Hb.
  rewrite in_bounds_passphrase by (cbn; lia).
  destruct (_generate_passphrase (PasswordGenerator_init default_policy words)
              n st w) as [[s | e] w'] eqn:Hrun; [now exists s, w' |].
  exfalso. revert Hrun.
  apply (passphrase_never_raises
           (PasswordGenerator_init default_policy words) n st Hne);
    vm_compute; discriminate.
Qed.

(** X20: passphrases at the command line succeed once the word list is
    loaded.  When the word-list file was opened and decoded as UTF-8
    and has a non-blank line, then with a word count between 12 and 128,
    any strength and any count, [--category passphrase] without
    [--output] prints a result and exits with status 0: under the
    default policy neither the digit nor the special class is empty, and
    passphrases are not put through the compliance check. *)
Theorem cli_passphrase_succeeds lines n count st can_write w :
  Exists (fun line => strip line <> []) lines ->
  (12 <= n <= 128)%Z ->
  exists result,
    fst (run_from_args (passphrase_args n count st) (Lines lines) can_write w)
      = Printed result /\
    exit_status
      (fst (run_from_args (passphrase_args n count st) (Lines lines)
              can_write w)) = 0%Z.
Proof.
  intros Hline Hb.
  unfold run_from_args, PasswordGenerator_new. cbn [_load_wordlist].
  set (words := map strip (filter (fun line => truthy (strip line)) lines)).
  assert (Hne : words <> []).
  { subst words. apply Exists_exists in Hline.
    destruct Hline as (line & Hin & Hstrip).
    assert (Hf : In line (filter (fun l => truthy (strip l)) lines)).
    { apply filter_In. split; [exact Hin |].
      destruct (strip line); [contradiction | reflexivity]. }
    intros Hnil. apply (in_map strip) in Hf. rewrite Hnil in Hf.
    contradiction. }
  cbn [args_count args_length args_category args_strength passphrase_args].
  destruct (count =? 1)%Z.
  - destruct (default_passphrase_returns words n st w Hne Hb)
      as (s & w' & Hrun).
    rewrite Hrun. eexists. split; reflexivity.
  - unfold generate_multiple.
    destruct (comprehension_returns
                (generate_password (PasswordGenerator_init default_policy words)
                   n PASSPHRASE st)
                (fun w0 => default_passphrase_returns words n st w0 Hne Hb)
                (Z.to_nat count) w) as (xs & w' & Hrun).
    rewrite Hrun. eexists. split; reflexivity.
Qed.

Lemma cli_passphrase_succeeds_witness :
  exists result,
    fst (run_from_args (passphrase_args 12 1 PARANOID) sample_file
           (fun _ => true) (entropy0 7 3)) = Printed result.
Proof.
  destruct (cli_passphrase_succeeds
              [lit "abacus"; lit "  ablaze "; lit "able"] 12 1 PARANOID
              (fun _ => true) (entropy0 7 3)) as (result & Hrun & _).
  - apply Exists_cons_hd. vm_compute. discriminate.
  - lia.
  - now exists result.
Defined.

(** * The PARANOID passphrase *)












